(** * EkiPick chat backend: orchestration, pin store, rate limiter, validation

    A shallow embedding of the chat router of the EkiPick backend
    ([app/routers/chat.py]), of the pin store ([app/services/send_pin.py]),
    of the conversation check ([app/services/global_state.py]), of the agent
    wrapper ([app/services/agents/custom_agent.py]) and of the rate limiter
    ([app/routers/middlewares/rate_limit.py]), with the properties of the
    streaming pipeline proved over it.

    Conventions
    - a Python [str] is a list of Unicode code points ([N]); [len] is
      [length], so length limits count characters as Python does;
    - a Python [float] is a binary64 [PrimFloat.float];
    - a [dict] keyed by strings is a [gmap]; a [list] is a [list] whose
      Python end ([append], [pop], [[-1]]) is the END of the Rocq list;
    - module-level mutable objects ([DATA_STORES], [SESSION_SERVICE],
      [_REQUEST_COUNTS]) are fields of an explicit [World] that every
      operation takes and returns. *)

From Stdlib Require Import PrimFloat.
From stdpp Require Import gmap strings list fin_maps sorting.

Local Open Scope Z_scope.

(* ===================================================================== *)
(** ** Python strings *)
(* ===================================================================== *)

Module Py.


(** Fuel-free UTF-8 decoding of the bytes of a Rocq string literal, used
    only to write the constants of the source legibly.  Lead bytes decide
    the length of a sequence; continuation bytes contribute 6 bits. *)
Fixpoint utf8_go (bs : list N) (pending : nat) (acc : N) : list N :=
  match bs with
  | [] => match pending with O => [] | S _ => [acc] end
  | b :: rest =>
      match pending with
      | S k =>
          let acc' := (acc * 64 + N.land b 63)%N in
          match k with
          | O => acc' :: utf8_go rest O 0%N
          | S _ => utf8_go rest k acc'
          end
      | O =>
          if (b <? 128)%N then b :: utf8_go rest O 0%N
          else if (b <? 224)%N then utf8_go rest 1%nat (N.land b 31)
          else if (b <? 240)%N then utf8_go rest 2%nat (N.land b 15)
          else utf8_go rest 3%nat (N.land b 7)
      end
  end.

Definition u (s : string) : list N :=
  utf8_go (Ascii.N_of_ascii <$> String.list_ascii_of_string s) O 0%N.

(** [pat in s] for strings: [pat] occurs as a contiguous block of [s]. *)
Fixpoint startswith (pat s : list N) : bool :=
  match pat, s with
  | [], _ => true
  | _ :: _, [] => false
  | p :: pat', c :: s' => (p =? c)%N && startswith pat' s'
  end.

Fixpoint contains (pat s : list N) : bool :=
  startswith pat s ||
  match s with
  | [] => false
  | _ :: s' => contains pat s'
  end.

(** [s.replace(c, "")] for a one-character [c]: drop every occurrence. *)
Definition remove_char (c : N) (s : list N) : list N :=
  filter (λ x, x ≠ c) s.

(** [str.isspace] on one character: the code points CPython's
    [_PyUnicode_IsWhitespace] accepts. *)
Definition isspace (c : N) : bool :=
  ((9 <=? c) && (c <=? 13) || (28 <=? c) && (c <=? 32)
   || (c =? 133) || (c =? 160) || (c =? 5760)
   || (8192 <=? c) && (c <=? 8202)
   || (c =? 8232) || (c =? 8233) || (c =? 8239) || (c =? 8287)
   || (c =? 12288))%N.

Fixpoint lstrip (s : list N) : list N :=
  match s with
  | [] => []
  | c :: s' => if isspace c then lstrip s' else s
  end.

(** [s.strip()]. *)
Definition strip (s : list N) : list N :=
  reverse (lstrip (reverse (lstrip s))).

(** ASCII letters and digits. *)
Definition ascii_alnum (c : N) : bool :=
  ((48 <=? c) && (c <=? 57) || (65 <=? c) && (c <=? 90)
   || (97 <=? c) && (c <=? 122))%N.

(** [l[-1]]: the last element, [None] standing for [IndexError]. *)
Definition last_item {A} (l : list A) : option A := last l.

End Py.

Abbreviation str := (list N) (only parsing).

(* ===================================================================== *)
(** ** JSON payloads and server-sent events *)
(* ===================================================================== *)

(** The values of the dictionaries handed to [json.dumps]. *)
Inductive jval : Type :=
  | JStr (s : str)
  | JInt (n : Z)
  | JFloat (f : float).

(** A flat Python [dict] with string keys, in insertion order. *)
Definition json : Type := list (str * jval).

(** One event of the stream: the text
    [f"data: {json.dumps(payload)}\n\n"]. *)
Record sse : Type := Data { payload : json }.

(** [d.get(k)] on the payload object. *)
Fixpoint assoc (k : str) (fields : json) : option jval :=
  match fields with
  | [] => None
  | (k', v) :: rest => if decide (k = k') then Some v else assoc k rest
  end.

Definition field (k : str) (e : sse) : option jval := assoc k (payload e).

(** The discriminator of an event. *)
Definition event_type (e : sse) : option str :=
  match field (Py.u "type") e with
  | Some (JStr t) => Some t
  | _ => None
  end.

(* ===================================================================== *)
(** ** send_pin.py: [SendPin] and [SendPinStore] *)
(* ===================================================================== *)

Record SendPin : Type := { lat : float; lon : float; name : str }.

Module SendPinStore.

(** [self.data]: a [defaultdict(list)] from user id to queued pin
    dictionaries. *)
Abbreviation t := (gmap (list N) (list json)) (only parsing).

Definition pin_dict (pin : SendPin) : json :=
  [ (Py.u "type", JStr (Py.u "pin"));
         (Py.u "lat", JFloat (lat pin));
         (Py.u "lon", JFloat (lon pin));
         (Py.u "name", JStr (name pin)) ].

(** [insert_pins]: [self.data[user_id]] creates the empty list for a
    missing key, then appends. *)
Definition insert_pins (user_id : str) (pin : SendPin)
    (data : gmap (list N) (list json)) : gmap (list N) (list json) :=
  <[ user_id := (data !!! user_id) ++ [pin_dict pin] ]> data.

(** The [while] loop of [extract_pins]: pop from the end until the
    list is empty; structurally recursive on the reversed queue. *)
Fixpoint pop_all (rev_queue : list json) (pins : list sse) : list sse :=
  match rev_queue with
  | [] => pins
  | d :: rest => pop_all rest (pins ++ [Data d])
  end.

(** [extract_pins]: an unknown user returns [[]] and leaves the store
    alone; a known one is emptied (the key stays, with [[]]). *)
Definition extract_pins (user_id : str)
    (data : gmap (list N) (list json))
    : list sse * gmap (list N) (list json) :=
  match data !! user_id with
  | None => ([], data)
  | Some queue => (pop_all (reverse queue) [], <[ user_id := [] ]> data)
  end.

End SendPinStore.

(* ===================================================================== *)
(** ** middlewares/rate_limit.py *)
(* ===================================================================== *)

Module RateLimit.

(** [_REQUEST_COUNTS]: per client, a dict from bucket key to count.  The
    source keys the inner dict by [str(n)] and reads it back with
    [int(timestamp)]; the key is kept as the integer [n] here, the two
    conversions being inverse to each other on integers. *)
Abbreviation counts := (gmap (list N) (gmap Z Z)) (only parsing).

(** [sum(d.values())]. *)
Definition total (d : gmap Z Z) : Z :=
  map_fold (λ _ count acc, count + acc) 0 d.

(** The dict comprehension of the clean-up step. *)
Definition cleanup (window_start : Z) (d : gmap Z Z) : gmap Z Z :=
  filter (λ kv, window_start < kv.1) d.

(** [check_rate_limit(client_ip, limit, window)] at clock reading
    [current_time = int(datetime.now().timestamp())]; [//] is floor
    division, as [Z.div] is for a positive divisor. *)
Definition check_rate_limit (client_ip : str) (limit window : Z)
    (current_time : Z) (rc : gmap (list N) (gmap Z Z))
    : bool * gmap (list N) (gmap Z Z) :=
  let window_start := current_time - window in
  let rc1 :=
    match rc !! client_ip with
    | None => <[ client_ip := ∅ ]> rc
    | Some _ => rc
    end in
  let rc2 := <[ client_ip := cleanup window_start (rc1 !!! client_ip) ]> rc1 in
  let total_requests := total (rc2 !!! client_ip) in
  if bool_decide (limit ≤ total_requests) then (false, rc2)
  else
    let current_minute := current_time `div` 60 * 60 in
    let d := rc2 !!! client_ip in
    (true,
     <[ client_ip := <[ current_minute := default 0 (d !! current_minute) + 1 ]> d ]> rc2).

(** The defaults of the signature, as [chat] calls it. *)
Definition default_limit : Z := 10.
Definition default_window : Z := 60.

Definition check (client_ip : str) (current_time : Z)
    (rc : gmap (list N) (gmap Z Z)) : bool * gmap (list N) (gmap Z Z) :=
  check_rate_limit client_ip default_limit default_window current_time rc.

(** A client issuing requests at the given clock readings, one after
    the other; the answers are returned in the same order. *)
Fixpoint replay (client_ip : str) (times : list Z)
    (rc : gmap (list N) (gmap Z Z)) : list bool * gmap (list N) (gmap Z Z) :=
  match times with
  | [] => ([], rc)
  | t :: rest =>
      let '(ok, rc') := check client_ip t rc in
      let '(oks, rc'') := replay client_ip rest rc' in
      (ok :: oks, rc'')
  end.

(** The state of one client within one clock minute [m]: nothing
    counted yet, or the single bucket of that minute. *)
Definition in_minute (m n : Z) (d : gmap Z Z) : Prop :=
  (n = 0 ∧ d = ∅) ∨ (0 < n ∧ d = {[ m * 60 := n ]}).

(** The sliding-window reading of the limiter: the eleventh of eleven
    requests of one client is turned down whenever the ten before it
    are less than a window old. *)
Definition eleventh_within_window_rejected : Prop :=
  ∀ (client_ip : str) (times : list Z) (t : Z),
    length times = 10%nat →
    Forall (λ x, x ≤ t ∧ t - x < default_window) times →
    (replay client_ip (times ++ [t]) ∅).1 !! 10%nat = Some false.

End RateLimit.

(* ===================================================================== *)
(** ** global_state.py: the session registry and the shared world *)
(* ===================================================================== *)

(** A session of the agent framework; the repository reads its [id]. *)
Record Session : Type := { id : str }.

(** [name in sessions and user_id in sessions[name] and
    session_id in sessions[name][user_id]], over
    [InMemorySessionService.sessions]: app name, then user id, then
    session id. *)
Definition check_conversation_if_exist
    (sessions : gmap (list N) (gmap (list N) (gmap (list N) Session)))
    (name user_id session_id : str) : bool :=
  match sessions !! name with
  | None => false
  | Some by_user =>
      match by_user !! user_id with
      | None => false
      | Some by_session => bool_decide (is_Some (by_session !! session_id))
      end
  end.

(** [InMemorySessionService.create_session] belongs to the agent
    framework, not to the repository; it is modelled by what the
    repository relies on: the session is filed under its app name, user id
    and session id, and returned. *)
Definition create_session
    (sessions : gmap (list N) (gmap (list N) (gmap (list N) Session)))
    (app_name user_id session_id : str)
    : Session * gmap (list N) (gmap (list N) (gmap (list N) Session)) :=
  let by_user := default ∅ (sessions !! app_name) in
  let by_session := default ∅ (by_user !! user_id) in
  let s := {| id := session_id |} in
  (s, <[ app_name := <[ user_id := <[ session_id := s ]> by_session ]> by_user ]> sessions).

(** The process-wide mutable objects: [SESSION_SERVICE.sessions],
    [DATA_STORES.data] and [_REQUEST_COUNTS]. *)
Record World : Type := {
  sessions : gmap (list N) (gmap (list N) (gmap (list N) Session));
  data : gmap (list N) (list json);
  request_counts : gmap (list N) (gmap Z Z)
}.

Definition set_sessions (w : World) s : World :=
  {| sessions := s; data := data w; request_counts := request_counts w |}.
Definition set_data (w : World) d : World :=
  {| sessions := sessions w; data := d; request_counts := request_counts w |}.
Definition set_request_counts (w : World) rc : World :=
  {| sessions := sessions w; data := data w; request_counts := rc |}.

(** A raised exception: [str(e)] and the text [traceback.format_exc()]
    prints for it. *)
Record exn : Type := { exn_str : str; format_exc : str }.

(** The agents the builders of [app/services/agents] construct. *)
Inductive agent_kind : Type :=
  | station_agent
  | multiple_pin_station_agent
  | suggest_agent
  | report_agent (number : nat)
  | followup_agent
  | estate_agent.

#[global] Instance agent_kind_eq_dec : EqDecision agent_kind.
Proof. solve_decision. Defined.

(** What one [Runner.run_async] does, as the wrapper observes it: events
    are yielded, tools called in between insert pins for a user, and the
    run ends normally or by raising. *)
Record Part : Type := { text : option str }.
Record Content : Type := { parts : list Part }.
Record Event : Type := { content : option Content }.

Inductive run_step : Type :=
  | Emits (e : Event)
  | ToolInsertsPin (user_id : str) (pin : SendPin).

Record run : Type := { steps : list run_step; raised : option exn }.

(* ===================================================================== *)
(** ** agents/custom_agent.py: [CustomAgent.stream] *)
(* ===================================================================== *)

Module CustomAgent.

Definition MODEL : str := Py.u "MODEL".

(** [[p.text for p in event.content.parts if p.text]]. *)
Definition truthy_texts (ps : list Part) : list str :=
  omap (λ p, match text p with
             | Some (c :: s) => Some (c :: s)
             | _ => None
             end) ps.

(** ["\\n".join(texts)]. *)
Fixpoint join_lines (texts : list str) : str :=
  match texts with
  | [] => []
  | t :: rest =>
      match rest with
      | [] => t
      | _ :: _ => t ++ 10%N :: join_lines rest
      end
  end.

(** The body of the [async for]: the text an event adds to [result],
    if any. *)
Definition event_response (e : Event) : option str :=
  match content e with
  | Some c =>
      match parts c with
      | [] => None
      | _ :: _ =>
          match join_lines (truthy_texts (parts c)) with
          | [] => None
          | ch :: response => Some (ch :: response)
          end
      end
  | None => None
  end.

(** The loop over the run, with the pins the tools insert meanwhile. *)
Fixpoint consume (ss : list run_step) (result : list str)
    (d : gmap (list N) (list json)) : list str * gmap (list N) (list json) :=
  match ss with
  | [] => (result, d)
  | Emits e :: rest =>
      match event_response e with
      | Some response => consume rest (result ++ [response]) d
      | None => consume rest result d
      end
  | ToolInsertsPin user_id pin :: rest =>
      consume rest result (SendPinStore.insert_pins user_id pin d)
  end.

Definition no_response : str := Py.u "応答を生成できませんでした。".
Definition error_prefix : str := Py.u "エラーが発生しました: ".

(** The [if]/[else] that opens [stream]: the session on file, or a new
    one. *)
Definition _session (user_id session_id : str) (w : World) : Session * World :=
  if check_conversation_if_exist (sessions w) MODEL user_id session_id
  then
    (default {| id := session_id |}
       (((sessions w !!! MODEL) !!! user_id) !! session_id), w)
  else
    let '(s, tbl) := create_session (sessions w) MODEL user_id session_id in
    (s, set_sessions w tbl).

(** The texts a run adds to [result], in order. *)
Definition responses (ss : list run_step) : list str :=
  omap (λ s, match s with
             | Emits e => event_response e
             | ToolInsertsPin _ _ => None
             end) ss.

Section Stream.
(** The reasoning run of the framework for an agent, a query, a user
    and a session, in a given world. *)
Variable run_async : agent_kind → str → str → str → World → run.

(** The run [stream] starts. *)
Definition run_of (agent : agent_kind) (query user_id session_id : str)
    (w : World) : run :=
  let '(s, w1) := _session user_id session_id w in
  run_async agent query user_id (id s) w1.

Definition stream (agent : agent_kind) (query user_id session_id : str)
    (w : World) : list str * World :=
  let '(s, w1) := _session user_id session_id w in
  let r := run_async agent query user_id (id s) w1 in
  let '(result, d) := consume (steps r) [] (data w1) in
  let w2 := set_data w1 d in
  match raised r with
  | Some e => ([error_prefix ++ format_exc e], w2)
  | None =>
      match result with
      | [] => ([no_response], w2)
      | _ :: _ => (result, w2)
      end
  end.
End Stream.

End CustomAgent.

(* ===================================================================== *)
(** ** Generators: what a stream does, step by step *)
(* ===================================================================== *)

(** The observable steps of a generator of [chat.py]: an agent is built
    and its [stream] awaited (with the list it returned), or a line is
    yielded to the client. *)
Inductive action : Type :=
  | Invoke (agent : agent_kind) (query user_id session_id : str)
      (response : list str)
  | Yield (e : sse).

(** How the iteration of a generator ends. *)
Inductive ending : Type :=
  | Done
  | Raised (e : exn).

(** A computation over the shared world that logs its actions and may
    raise: the log so far, an exception or a value, and the world. *)
Definition G (A : Type) : Type := World → list action * (exn + A) * World.

#[global] Instance G_ret : MRet G := λ A a w, ([], inr a, w).

#[global] Instance G_bind : MBind G := λ A B f m w,
  match m w with
  | (t1, inl e, w1) => (t1, inl e, w1)
  | (t1, inr a, w1) =>
      let '(t2, r, w2) := f a w1 in (t1 ++ t2, r, w2)
  end.

Definition raise {A : Type} (e : exn) : G A := λ w, ([], inl e, w).

(** [yield line]. *)
Definition yield (e : sse) : G () := λ w, ([Yield e], inr (), w).

(** [for pin in pins: yield pin]. *)
Fixpoint yield_each (es : list sse) : G () :=
  match es with
  | [] => mret ()
  | e :: rest => yield e;; yield_each rest
  end.

(** [try: body / except Exception as e: handler(e)]. *)
Definition try_except (body : G ()) (handler : exn → G ()) : G () := λ w,
  match body w with
  | (t1, inl e, w1) =>
      let '(t2, r, w2) := handler e w1 in (t1 ++ t2, r, w2)
  | (t1, inr a, w1) => (t1, inr a, w1)
  end.

(** [IndexError], as [response[-1]] raises it on an empty list. *)
Definition IndexError : exn :=
  {| exn_str := Py.u "list index out of range";
     format_exc := Py.u "IndexError: list index out of range" |}.

(** [response[-1]]. *)
Definition last_of (response : list str) : G str :=
  match Py.last_item response with
  | Some m => mret m
  | None => raise IndexError
  end.

(** [DATA_STORES.extract_pins(user_id)]. *)
Definition extract_pins (user_id : str) : G (list sse) := λ w,
  let '(pins, d) := SendPinStore.extract_pins user_id (data w) in
  ([], inr pins, set_data w d).

(** The events the generators put on the stream. *)
Definition events (trace : list action) : list sse :=
  omap (λ a, match a with Yield e => Some e | Invoke _ _ _ _ _ => None end) trace.

(** The agents a generator invoked, with their queries, in order. *)
Definition invocations (trace : list action) : list (agent_kind * str) :=
  omap (λ a, match a with
             | Invoke agent query _ _ _ => Some (agent, query)
             | Yield _ => None
             end) trace.

(* ===================================================================== *)
(** ** routers/chat.py *)
(* ===================================================================== *)

Record ChatRequest : Type := { message : str; session_id : str }.

(** What the validation of a request body reports. *)
Inductive validation_error : Type :=
  | string_too_short (field : string)
  | string_too_long (field : string)
  | value_error (field : string) (msg : string).

(** The [agent_response] line of every textual step. *)
Definition agent_response (message : str) : sse :=
  Data [ (Py.u "type", JStr (Py.u "agent_response"));
         (Py.u "agent", JStr (Py.u "real_estate_response"));
         (Py.u "agent_name", JStr (Py.u "不動産エージェント"));
         (Py.u "message", JStr message);
         (Py.u "round", JInt 0) ].

(** The [error] line of the continuation pipeline. *)
Definition error_event (e : exn) : sse :=
  Data [ (Py.u "type", JStr (Py.u "error"));
         (Py.u "message",
          JStr (Py.u "会話中にエラーが発生しました: " ++ exn_str e)) ].

(** The marker the report agents are told to answer with for a missing
    station. *)
Definition no_output : str := Py.u "出力無".

(** The answers of [chat]: the framework refuses an invalid body with 422
    before the handler runs; the handler raises 429 or returns the
    stream, whose generator is then iterated to its end. *)
Inductive http_response : Type :=
  | Unprocessable (errors : list validation_error)
  | TooManyRequests
  | StreamingResponse (trace : list action) (finish : ending).

Section Chat.

(** The table [str.isalnum] consults for the characters beyond ASCII. *)
Variable unicode_alnum : N → bool.

(** The builders of [app/services/agents] call constructors of the agent
    framework, which may raise; [None] when the agent is built. *)
Variable build : agent_kind → option exn.

(** The reasoning runs of the framework. *)
Variable run_async : agent_kind → str → str → str → World → run.

(** One character of [str.isalnum]. *)
Definition isalnum_char (c : N) : bool :=
  if (c <? 128)%N then Py.ascii_alnum c else unicode_alnum c.

(** [s.isalnum()]: at least one character, all of them alphanumeric. *)
Definition isalnum (s : str) : bool :=
  match s with
  | [] => false
  | _ :: _ => forallb isalnum_char s
  end.

(** A [str] field with [min_length] and [max_length]. *)
Definition check_length (field : string) (min_length max_length : nat)
    (v : str) : option validation_error :=
  if (length v <? min_length)%nat then Some (string_too_short field)
  else if (max_length <? length v)%nat then Some (string_too_long field)
  else None.

(** [sanitize_message], run on a value that passed the field's
    constraints. *)
Definition sanitize_message (v : str) : validation_error + str :=
  inr (Py.strip v).

(** [validate_session_id], likewise. *)
Definition validate_session_id (v : str) : validation_error + str :=
  if negb (isalnum (Py.remove_char 95 (Py.remove_char 45 v)))
  then inl (value_error "session_id"
    "session_id must contain only alphanumeric characters, hyphens, and underscores")
  else inr v.

(** A field: its constraints first, then its validator (a
    [field_validator] runs after the field's own validation). *)
Definition validate_field (field : string) (min_length max_length : nat)
    (validator : str → validation_error + str) (v : str)
    : validation_error + str :=
  match check_length field min_length max_length v with
  | Some err => inl err
  | None => validator v
  end.

(** Validation of the body into a [ChatRequest]: every field is
    validated, and the errors of all of them are reported. *)
Definition validate (raw_message raw_session_id : str)
    : list validation_error + ChatRequest :=
  match validate_field "message" 1 1000 sanitize_message raw_message,
        validate_field "session_id" 1 100 validate_session_id raw_session_id with
  | inr m, inr s => inr {| message := m; session_id := s |}
  | inl e1, inl e2 => inl [e1; e2]
  | inl e1, inr _ => inl [e1]
  | inr _, inl e2 => inl [e2]
  end.

(** [agent = build_..._agent(SESSION_SERVICE)] followed by
    [response = await agent.stream(query, user_id, session_id)]. *)
Definition invoke (agent : agent_kind) (query user_id session_id : str)
    : G (list str) := λ w,
  match build agent with
  | Some e => ([], inl e, w)
  | None =>
      let '(response, w') :=
        CustomAgent.stream run_async agent query user_id session_id w in
      ([Invoke agent query user_id session_id response], inr response, w')
  end.

(** The [for i in range(3)] loop over the report agents, with its
    [break]. *)
Fixpoint report_loop (range : list nat) (pins_message user_id session_id : str)
    : G () :=
  match range with
  | [] => mret ()
  | i :: rest =>
      response ← invoke (report_agent (i + 1)) pins_message user_id session_id;
      message ← last_of response;
      if Py.contains no_output message then mret ()
      else
        yield (agent_response message);;
        report_loop rest pins_message user_id session_id
  end.

Definition _generate_first_conversation
    (user_message user_id session_id : str) : G () :=
  response ← invoke station_agent user_message user_id session_id;
  pin_message ← last_of response;
  pins ← extract_pins user_id;
  yield_each pins;;
  yield (agent_response pin_message);;
  response ← invoke suggest_agent user_message user_id session_id;
  suggestion_message ← last_of response;
  yield (agent_response suggestion_message);;
  response ← invoke multiple_pin_station_agent suggestion_message user_id session_id;
  pins_message ← last_of response;
  yield (agent_response pins_message);;
  pins ← extract_pins user_id;
  yield_each pins;;
  report_loop (seq 0 3) pins_message user_id session_id;;
  response ← invoke followup_agent suggestion_message user_id session_id;
  followup ← last_of response;
  yield (agent_response followup).

(** The handler also prints the exception, which leaves no trace on the
    stream. *)
Definition _generate_after_second_conversations
    (message user_id session_id : str) : G () :=
  try_except
    (response ← invoke estate_agent message user_id session_id;
     message ← last_of response;
     pins ← extract_pins user_id;
     yield_each pins;;
     yield (agent_response message))
    (λ e, yield (error_event e)).

Definition ending_of (r : exn + ()) : ending :=
  match r with
  | inl e => Raised e
  | inr _ => Done
  end.

(** [chat]: the body is validated, the client's rate checked at clock
    reading [now], the generator chosen, and the stream iterated.  The
    [try] around the construction of the response catches nothing of the
    generator, whose body only runs when the response is iterated. *)
Definition chat (raw_message raw_session_id client_ip : str) (now : Z)
    (w : World) : http_response * World :=
  match validate raw_message raw_session_id with
  | inl errors => (Unprocessable errors, w)
  | inr request =>
      let '(allowed, rc) := RateLimit.check client_ip now (request_counts w) in
      let w1 := set_request_counts w rc in
      if negb allowed then (TooManyRequests, w1)
      else
        let session_id := session_id request in
        let user_id := session_id in
        let message := message request in
        let name := Py.u "MODEL" in
        let second_coversations :=
          check_conversation_if_exist (sessions w1) name user_id session_id in
        let generate :=
          if second_coversations then _generate_after_second_conversations
          else _generate_first_conversation in
        let '(trace, r, w2) := generate message user_id session_id w1 in
        (StreamingResponse trace (ending_of r), w2)
  end.

End Chat.

(** The shape of the report section of a trace: the slots that reported,
    each an invocation followed by its event, numbered from [slot] on... *)
Fixpoint report_actions (pins_message user_id session_id : str) (slot : nat)
    (reports : list (list str * str)) : list action :=
  match reports with
  | [] => []
  | (response, message) :: rest =>
      Invoke (report_agent slot) pins_message user_id session_id response
      :: Yield (agent_response message)
      :: report_actions pins_message user_id session_id (S slot) rest
  end.

(** ... and the slot that ended the loop, if one did: an invocation
    without an event. *)
Definition break_action (pins_message user_id session_id : str) (slot : nat)
    (stopped : option (list str * str)) : list action :=
  match stopped with
  | Some (response, _) =>
      [Invoke (report_agent slot) pins_message user_id session_id response]
  | None => []
  end.

(** The store holds pin dictionaries only, as [insert_pins] writes them. *)
Definition is_pin (j : json) : Prop :=
  assoc (Py.u "type") j = Some (JStr (Py.u "pin")).

Definition pins_only (d : gmap (list N) (list json)) : Prop :=
  ∀ user_id queue, d !! user_id = Some queue → Forall is_pin queue.

(** An event other than the [error] line. *)
Definition not_error (e : sse) : Prop := event_type e ≠ Some (Py.u "error").

(** A computation that keeps the store to pin dictionaries, yields no
    [error] line, and returns a value satisfying [Q] when it returns. *)
Definition yields_no_error {A : Type} (m : G A) (Q : A → Prop) : Prop :=
  ∀ w, pins_only (data w) →
    pins_only (data (m w).2)
    ∧ Forall not_error (events (m w).1.1)
    ∧ ∀ a, (m w).1.2 = inr a → Q a.

(* ===================================================================== *)
(** ** Sequences of calls, and what generators keep *)
(* ===================================================================== *)

(** A call on the pin store. *)
Inductive store_op : Type :=
  | InsertPin (user_id : str) (pin : SendPin)
  | ExtractPins (user_id : str).

(** The calls made one after the other on the store; every
    [extract_pins] is logged with its user and what it returned. *)
Fixpoint run_store_ops (ops : list store_op) (d : gmap (list N) (list json))
    : list (str * list sse) * gmap (list N) (list json) :=
  match ops with
  | [] => ([], d)
  | InsertPin user_id pin :: rest =>
      run_store_ops rest (SendPinStore.insert_pins user_id pin d)
  | ExtractPins user_id :: rest =>
      let '(pins, d1) := SendPinStore.extract_pins user_id d in
      let '(log, d2) := run_store_ops rest d1 in
      ((user_id, pins) :: log, d2)
  end.

(** Everything the drains of one user returned, in order. *)
Definition drained (user_id : str) (log : list (str * list sse)) : list sse :=
  flat_map (λ entry, if decide (entry.1 = user_id) then entry.2 else []) log.

(** The dictionaries the calls enqueued for one user, in order. *)
Definition enqueued (user_id : str) (ops : list store_op) : list json :=
  omap (λ op, match op with
              | InsertPin u pin =>
                  if decide (u = user_id) then Some (SendPinStore.pin_dict pin)
                  else None
              | ExtractPins _ => None
              end) ops.

(** The dictionaries the tools of a run enqueue for one user, in order. *)
Definition tool_pins (user_id : str) (ss : list run_step) : list json :=
  omap (λ s, match s with
             | ToolInsertsPin u pin =>
                 if decide (u = user_id) then Some (SendPinStore.pin_dict pin)
                 else None
             | Emits _ => None
             end) ss.

(** How many of the requests made at [times], answered [oks], were
    accepted during clock minute [m]. *)
Definition accepted_in_minute (m : Z) (times : list Z) (oks : list bool) : nat :=
  length (filter (λ p, p.1 = true ∧ p.2 `div` 60 = m) (zip oks times)).

(** The dict of a client while the clock is in minute [cur], with [k]
    requests counted in that minute: the bucket of the minute holds [k]
    (and is absent when [k] is 0), and every other bucket started at least
    a minute before it. *)
Definition at_minute (cur k : Z) (d : gmap Z Z) : Prop :=
  (∀ b c, d !! b = Some c → b = cur * 60 ∨ b ≤ cur * 60 - 60)
  ∧ d !! (cur * 60) = (if decide (k = 0) then None else Some k)
  ∧ 0 ≤ k ≤ RateLimit.default_limit.

(** The conversation of a user and session is on file. *)
Definition on_file (user_id session_id : str) (w : World) : Prop :=
  check_conversation_if_exist (sessions w) CustomAgent.MODEL user_id session_id
  = true.

(** A computation keeps a property of the world. *)
Definition preserves {A : Type} (I : World → Prop) (m : G A) : Prop :=
  ∀ w, I w → I (m w).2.

(** The three kinds of line of the stream. *)
Definition pin_line (e : sse) : Prop := ∃ j, is_pin j ∧ e = Data j.
Definition text_line (e : sse) : Prop := ∃ m, m ≠ [] ∧ e = agent_response m.
Definition error_line (e : sse) : Prop := ∃ x, e = error_event x.

(** A computation that keeps the store to pin dictionaries, yields only
    lines satisfying [P], and returns a value satisfying [Q] when it
    returns. *)
Definition emits_only {A : Type} (P : sse → Prop) (m : G A) (Q : A → Prop)
    : Prop :=
  ∀ w, pins_only (data w) →
    pins_only (data (m w).2)
    ∧ Forall P (events (m w).1.1)
    ∧ ∀ a, (m w).1.2 = inr a → Q a.

(* ===================================================================== *)
(** ** routers/explore.py: [categorize_by_time] *)
(* ===================================================================== *)

Module Explore.

Section CategorizeByTime.
(** A station dictionary, the numbers found under its ["travel_time"]
    key ([None] when the key is absent), and the comparison [time <= k]
    of such a number with an integer literal. *)
Context {station number : Type}.
Variable travel_time : station → option number.
Variable le : number → Z → bool.

(** [station.get("travel_time", 0) <= k]: an absent key reads as the
    integer 0. *)
Definition time_le (st : station) (k : Z) : bool :=
  match travel_time st with
  | Some t => le t k
  | None => bool_decide (0 ≤ k)
  end.

(** The keys of [zones], in the order of the literal. *)
Definition zone_names : list string :=
  ["0-10min"; "10-20min"; "20-30min"; "30-45min"; "45-60min"; "60min+"].

(** The [if]/[elif] chain: the key a station is appended to. *)
Definition zone_of (st : station) : string :=
  if time_le st 10 then "0-10min"
  else if time_le st 20 then "10-20min"
  else if time_le st 30 then "20-30min"
  else if time_le st 45 then "30-45min"
  else if time_le st 60 then "45-60min"
  else "60min+".

(** [zones[key].append(st)] on a dict kept as its list of items. *)
Definition append_to (key : string) (st : station)
    (zones : list (string * list station)) : list (string * list station) :=
  (λ kv, if decide (kv.1 = key) then (kv.1, kv.2 ++ [st]) else kv) <$> zones.

Definition categorize_by_time (stations : list station)
    : list (string * list station) :=
  foldl (λ zones st, append_to (zone_of st) st zones)
    ((λ z, (z, [])) <$> zone_names) stations.

End CategorizeByTime.

End Explore.

(* ===================================================================== *)
(** ** tools/map_api.py: [get_station_coordinates] *)
(* ===================================================================== *)

Module MapApi.

(** What the geocoding request comes to inside the [try] block.
    [GeocodeRaises] stands for every exception raised there before a pin
    is inserted (a failed request, an error status of the transport, a
    body that is not JSON or lacks the keys that are read): one [except]
    clause answers them all alike.  Otherwise the body has a ["status"]
    and the coordinates [lat], [lng] of the location of each of its
    ["results"], floats as [SendPin] declares them. *)
Inductive geocode_outcome : Type :=
  | GeocodeRaises
  | Geocoded (status : str) (results : list (float * float)).

(** The dictionaries the tool serialises as its answer. *)
Definition success (station_name : str) : json :=
  [ (Py.u "status", JStr (Py.u "success"));
    (Py.u "message", JStr (station_name ++ Py.u "を左側の地図に表示いたします")) ].

Definition not_found (station_name : str) : json :=
  [ (Py.u "status", JStr (Py.u "error"));
    (Py.u "message", JStr (station_name ++ Py.u "の座標が見つかりませんでした")) ].

Definition error_result : json :=
  [ (Py.u "status", JStr (Py.u "error"));
    (Py.u "message", JStr (Py.u "座標取得に失敗しました")) ].

(** [get_station_coordinates(station_name, tool_context)]: [tool_context]
    is [None] or carries the user id of the invocation.  [user_id] is
    only bound when there is a tool context, so reading it without one
    raises inside the [try] block and gives the error answer; an empty
    user id is falsy and inserts nothing. *)
Definition get_station_coordinates (station_name : str)
    (tool_context : option str) (http : geocode_outcome)
    (d : gmap (list N) (list json)) : json * gmap (list N) (list json) :=
  match http with
  | GeocodeRaises => (error_result, d)
  | Geocoded status results =>
      match bool_decide (status = Py.u "OK"), results with
      | true, (lat, lng) :: _ =>
          let pin := {| lat := lat; lon := lng; name := station_name |} in
          match tool_context with
          | None => (error_result, d)
          | Some user_id =>
              (success station_name,
               match user_id with
               | [] => d
               | _ :: _ => SendPinStore.insert_pins user_id pin d
               end)
          end
      | _, _ => (not_found station_name, d)
      end
  end.

End MapApi.

(* ===================================================================== *)
(** ** A concrete run of the framework, for evaluation *)
(* ===================================================================== *)

Module Scenario.

(** No character beyond ASCII counts as alphanumeric. *)
Definition ascii_only : N → bool := λ _, false.

(** Every agent is built. *)
Definition all_built : agent_kind → option exn := λ _, None.

Definition says (s : string) : run_step :=
  Emits {| content := Some {| parts := [ {| text := Some (Py.u s) |} ] |} |}.

Definition shinjuku : SendPin :=
  {| lat := 35.6875%float; lon := 139.75%float; name := Py.u "新宿駅" |}.
Definition nakano : SendPin :=
  {| lat := 35.75%float; lon := 139.625%float; name := Py.u "中野駅" |}.
Definition ogikubo : SendPin :=
  {| lat := 35.625%float; lon := 139.5%float; name := Py.u "荻窪駅" |}.

(** The station agent pins the work place, the multiple-pin agent pins
    two suggested stations, the second report agent finds no second
    station to report on... *)
Definition script (agent : agent_kind) (query user_id session_id : str)
    (w : World) : run :=
  match agent with
  | station_agent =>
      {| steps := [ToolInsertsPin user_id shinjuku; says "located"];
         raised := None |}
  | suggest_agent =>
      {| steps := [says "suggested"]; raised := None |}
  | multiple_pin_station_agent =>
      {| steps := [ToolInsertsPin user_id nakano;
                   ToolInsertsPin user_id ogikubo; says "pinned"];
         raised := None |}
  | report_agent 1 => {| steps := [says "report 1"]; raised := None |}
  | report_agent _ => {| steps := [says "出力無"]; raised := None |}
  | followup_agent => {| steps := [says "anything else?"]; raised := None |}
  | estate_agent =>
      {| steps := [ToolInsertsPin user_id nakano; says "general"];
         raised := None |}
  end.

Definition empty_world : World :=
  {| sessions := ∅; data := ∅; request_counts := ∅ |}.

(** The estate agent cannot be built. *)
Definition boom : exn :=
  {| exn_str := Py.u "boom"; format_exc := Py.u "Traceback: boom" |}.

Definition estate_fails (agent : agent_kind) : option exn :=
  match agent with
  | estate_agent => Some boom
  | _ => None
  end.

Definition station_fails (agent : agent_kind) : option exn :=
  match agent with
  | station_agent => Some boom
  | _ => None
  end.

(** A run that raises after a first output, and a run without output. *)
Definition crashing (agent : agent_kind) (query user_id session_id : str)
    (w : World) : run :=
  {| steps := [says "partial"]; raised := Some boom |}.

Definition silent (agent : agent_kind) (query user_id session_id : str)
    (w : World) : run :=
  {| steps := []; raised := None |}.

Definition sess_1 : str := Py.u "sess-1".
Definition client : str := Py.u "203.0.113.7".

End Scenario.

(* ===================================================================== *)
(** * Properties *)
(* ===================================================================== *)

(** ** The pin store *)

Module PinStoreFacts.
Import SendPinStore.

Lemma pop_all_app (q : list json) (acc : list sse) :
  pop_all q acc = acc ++ (Data <$> q).
Proof.
  revert acc. induction q as [|d q IH]; intros acc; simpl.
  - by rewrite app_nil_r.
  - rewrite IH. by rewrite <- app_assoc.
Qed.

Lemma extract_pins_known (user_id : str) (q : list json)
    (d : gmap (list N) (list json)) :
  d !! user_id = Some q →
  extract_pins user_id d = (Data <$> reverse q, <[ user_id := [] ]> d).
Proof. intros H. unfold extract_pins. rewrite H. by rewrite pop_all_app. Qed.

Lemma extract_pins_unknown (user_id : str) (d : gmap (list N) (list json)) :
  d !! user_id = None → extract_pins user_id d = ([], d).
Proof. intros H. unfold extract_pins. by rewrite H. Qed.

Lemma insert_pins_lookup (user_id : str) (pin : SendPin)
    (d : gmap (list N) (list json)) :
  insert_pins user_id pin d !! user_id
  = Some (d !!! user_id ++ [pin_dict pin]).
Proof. unfold insert_pins. by rewrite lookup_insert_eq. Qed.

Lemma insert_pins_lookup_total (user_id : str) (pin : SendPin)
    (d : gmap (list N) (list json)) :
  insert_pins user_id pin d !!! user_id = d !!! user_id ++ [pin_dict pin].
Proof. by rewrite lookup_total_alt, insert_pins_lookup. Qed.

Lemma insert_pins_other (user_id other : str) (pin : SendPin)
    (d : gmap (list N) (list json)) :
  user_id ≠ other → insert_pins user_id pin d !! other = d !! other.
Proof. intros H. unfold insert_pins. by rewrite lookup_insert_ne. Qed.

(** Enqueuing a whole list and draining once gives the list reversed. *)
Lemma extract_after_inserts (user_id : str) (pins : list SendPin)
    (d : gmap (list N) (list json)) :
  d !!! user_id = [] →
  pins ≠ [] →
  (extract_pins user_id (foldl (λ d p, insert_pins user_id p d) d pins)).1
  = Data <$> reverse (pin_dict <$> pins).
Proof.
  intros Hempty Hne.
  assert (Hq : ∀ ps d0, ps ≠ [] →
    foldl (λ d p, insert_pins user_id p d) d0 ps !! user_id
    = Some (d0 !!! user_id ++ (pin_dict <$> ps))).
  { clear. induction ps as [|p ps IH]; intros d0 Hps; [done|]. simpl.
    destruct ps as [|p' ps].
    - simpl. apply insert_pins_lookup.
    - rewrite IH by done. rewrite insert_pins_lookup_total.
      by rewrite <- app_assoc. }
  rewrite (extract_pins_known _ _ _ (Hq pins d Hne)). simpl.
  by rewrite Hempty.
Qed.

End PinStoreFacts.

(** C3. The drain of the pin store is last-in-first-out and destructive:
    after [p1], [p2], [p3] are enqueued for a user whose queue is empty
    (absent, or present and empty), one [extract_pins] returns the lines of
    [p3], [p2], [p1] in that order, a second [extract_pins] for the same
    user returns the empty list, and [extract_pins] for a user who never
    had a pin enqueued returns the empty list (and leaves an unknown
    user's store untouched) instead of failing. *)
Theorem extract_pins_lifo_destructive
    (user_id : str) (p1 p2 p3 : SendPin) (d : gmap (list N) (list json)) :
  d !!! user_id = [] →
  let d3 := SendPinStore.insert_pins user_id p3
              (SendPinStore.insert_pins user_id p2
                 (SendPinStore.insert_pins user_id p1 d)) in
  let first := SendPinStore.extract_pins user_id d3 in
  let second := SendPinStore.extract_pins user_id first.2 in
  first.1 = [Data (SendPinStore.pin_dict p3);
             Data (SendPinStore.pin_dict p2);
             Data (SendPinStore.pin_dict p1)]
  ∧ second.1 = []
  ∧ (SendPinStore.extract_pins user_id d).1 = []
  ∧ (d !! user_id = None → SendPinStore.extract_pins user_id d = ([], d)).
Proof.
  intros Hempty d3 first second.
  assert (Hd3 : d3 !! user_id
    = Some [SendPinStore.pin_dict p1; SendPinStore.pin_dict p2; SendPinStore.pin_dict p3]).
  { unfold d3. rewrite PinStoreFacts.insert_pins_lookup.
    rewrite !PinStoreFacts.insert_pins_lookup_total, Hempty. done. }
  assert (Hfirst : first
    = ([Data (SendPinStore.pin_dict p3); Data (SendPinStore.pin_dict p2);
        Data (SendPinStore.pin_dict p1)], <[ user_id := [] ]> d3)).
  { unfold first. by rewrite (PinStoreFacts.extract_pins_known _ _ _ Hd3). }
  split; [by rewrite Hfirst|].
  split.
  { unfold second. rewrite Hfirst. simpl.
    rewrite (PinStoreFacts.extract_pins_known user_id []); [done|].
    apply lookup_insert_eq. }
  split.
  { unfold SendPinStore.extract_pins.
    rewrite lookup_total_alt in Hempty.
    destruct (d !! user_id) as [q|]; [|done]. simpl in Hempty. by subst q. }
  apply PinStoreFacts.extract_pins_unknown.
Qed.

Lemma extract_pins_lifo_destructive_witness :
  let d3 := SendPinStore.insert_pins Scenario.sess_1 Scenario.ogikubo
              (SendPinStore.insert_pins Scenario.sess_1 Scenario.nakano
                 (SendPinStore.insert_pins Scenario.sess_1 Scenario.shinjuku ∅)) in
  (SendPinStore.extract_pins Scenario.sess_1 d3).1
  = [Data (SendPinStore.pin_dict Scenario.ogikubo);
     Data (SendPinStore.pin_dict Scenario.nakano);
     Data (SendPinStore.pin_dict Scenario.shinjuku)].
Proof.
  exact (proj1 (extract_pins_lifo_destructive Scenario.sess_1
    Scenario.shinjuku Scenario.nakano Scenario.ogikubo ∅ eq_refl)).
Defined.

(** ** The agent wrapper *)

Module CustomAgentFacts.
Import CustomAgent.

Lemma consume_responses (ss : list run_step) (acc : list str)
    (d : gmap (list N) (list json)) :
  (consume ss acc d).1 = acc ++ responses ss.
Proof.
  revert acc d. induction ss as [|s ss IH]; intros acc d; simpl.
  - by rewrite app_nil_r.
  - destruct s as [e|u p]; simpl.
    + destruct (event_response e) as [r|]; rewrite IH; [|done].
      by rewrite <- app_assoc.
    + by rewrite IH.
Qed.

(** What [stream] returns, by the way the run ended. *)
Lemma stream_result run_async agent query user_id session_id w :
  (stream run_async agent query user_id session_id w).1
  = match raised (run_of run_async agent query user_id session_id w) with
    | Some e => [error_prefix ++ format_exc e]
    | None =>
        match responses (steps (run_of run_async agent query user_id session_id w)) with
        | [] => [no_response]
        | r :: rs => r :: rs
        end
    end.
Proof.
  unfold stream, run_of.
  destruct (_session user_id session_id w) as [s w1].
  pose proof (consume_responses
    (steps (run_async agent query user_id (id s) w1)) [] (data w1)) as Hc.
  destruct (consume _ _ _) as [result d]. simpl in Hc. subst result.
  destruct (raised _); [done|].
  by destruct (responses _).
Qed.

(** [stream] never hands back an empty list. *)
Lemma stream_nonempty run_async agent query user_id session_id w :
  ∃ front m,
    (stream run_async agent query user_id session_id w).1 = front ++ [m].
Proof.
  rewrite stream_result.
  destruct (raised _) as [e|].
  - by exists [], (error_prefix ++ format_exc e).
  - destruct (responses _) as [|r rs] eqn:E.
    + by exists [], no_response.
    + destruct (exists_last (l := r :: rs)) as (front & m & ->); [done|].
      by exists front, m.
Qed.

End CustomAgentFacts.

(** C4. The fail-soft contract of [CustomAgent.stream]: whatever the
    reasoning run does, [stream] returns a list to its caller; if the run
    raised, the list is the single failure message (the error prefix
    followed by the traceback text); if the run ended normally without any
    textual output, the list is the single "no response" sentinel; if it
    produced outputs, the list is those outputs; hence the list is never
    empty and its last element exists. *)
Theorem stream_fail_soft
    (run_async : agent_kind → str → str → str → World → run)
    (agent : agent_kind) (query user_id session_id : str) (w : World) :
  let r := CustomAgent.run_of run_async agent query user_id session_id w in
  let result := (CustomAgent.stream run_async agent query user_id session_id w).1 in
  (∀ e, raised r = Some e →
     result = [CustomAgent.error_prefix ++ format_exc e])
  ∧ (raised r = None → CustomAgent.responses (steps r) = [] →
     result = [CustomAgent.no_response])
  ∧ (raised r = None → CustomAgent.responses (steps r) ≠ [] →
     result = CustomAgent.responses (steps r))
  ∧ result ≠ []
  ∧ is_Some (Py.last_item result).
Proof.
  intros r result. unfold result, r.
  rewrite CustomAgentFacts.stream_result.
  repeat split.
  - intros e He. by rewrite He.
  - intros Hn He. by rewrite Hn, He.
  - intros Hn He. rewrite Hn. by destruct (CustomAgent.responses _).
  - destruct (raised _); [done|]. by destruct (CustomAgent.responses _).
  - rewrite <- CustomAgentFacts.stream_result.
    destruct (CustomAgentFacts.stream_nonempty run_async agent query
      user_id session_id w) as (front & m & ->).
    unfold Py.last_item. rewrite last_snoc. by eexists.
Qed.

Lemma stream_fail_soft_witness :
  (CustomAgent.stream Scenario.crashing station_agent (Py.u "go")
     Scenario.sess_1 Scenario.sess_1 Scenario.empty_world).1
  = [CustomAgent.error_prefix ++ format_exc Scenario.boom]
  ∧ (CustomAgent.stream Scenario.silent station_agent (Py.u "go")
       Scenario.sess_1 Scenario.sess_1 Scenario.empty_world).1
    = [CustomAgent.no_response].
Proof.
  split.
  - exact (proj1 (stream_fail_soft Scenario.crashing station_agent (Py.u "go")
      Scenario.sess_1 Scenario.sess_1 Scenario.empty_world)
      Scenario.boom eq_refl).
  - exact (proj1 (proj2 (stream_fail_soft Scenario.silent station_agent
      (Py.u "go") Scenario.sess_1 Scenario.sess_1 Scenario.empty_world))
      eq_refl eq_refl).
Defined.

(** ** The rate limiter *)

Module RateLimitFacts.
Import RateLimit.

Lemma total_empty : total ∅ = 0.
Proof. apply map_fold_empty. Qed.

Lemma total_singleton (b c : Z) : total {[ b := c ]} = c.
Proof. unfold total. rewrite map_fold_singleton. lia. Qed.

(** The two branches of [check_rate_limit], with the creation of the
    client's entry folded into the clean-up. *)
Lemma check_rate_limit_unfold (client_ip : str) (limit window t : Z)
    (rc : gmap (list N) (gmap Z Z)) :
  let d := cleanup (t - window) (rc !!! client_ip) in
  check_rate_limit client_ip limit window t rc
  = if bool_decide (limit ≤ total d) then (false, <[ client_ip := d ]> rc)
    else (true,
          <[ client_ip :=
               <[ t `div` 60 * 60 := default 0 (d !! (t `div` 60 * 60)) + 1 ]> d ]> rc).
Proof.
  intros d. unfold check_rate_limit.
  set (rc1 := match rc !! client_ip with
              | None => <[ client_ip := ∅ ]> rc
              | Some _ => rc
              end).
  assert (H1 : rc1 !!! client_ip = rc !!! client_ip).
  { unfold rc1. rewrite !lookup_total_alt.
    destruct (rc !! client_ip) eqn:E; [by rewrite E|].
    by rewrite lookup_insert_eq. }
  assert (H2 : ∀ x, <[ client_ip := x ]> rc1 = <[ client_ip := x ]> rc).
  { intros x. unfold rc1. destruct (rc !! client_ip); [done|].
    apply insert_insert_eq. }
  rewrite H1, !H2. fold d. rewrite lookup_total_insert_eq.
  case_bool_decide; [done|]. by rewrite insert_insert_eq.
Qed.

Lemma cleanup_lookup_Some (ws : Z) (d : gmap Z Z) (b c : Z) :
  cleanup ws d !! b = Some c ↔ d !! b = Some c ∧ ws < b.
Proof. unfold cleanup. by rewrite map_lookup_filter_Some. Qed.

(** A later clean-up subsumes an earlier one. *)
Lemma cleanup_cleanup (ws ws' : Z) (d : gmap Z Z) :
  ws ≤ ws' → cleanup ws' (cleanup ws d) = cleanup ws' d.
Proof.
  intros Hle. apply map_eq. intros b.
  apply option_eq. intros c.
  rewrite !cleanup_lookup_Some. intuition lia.
Qed.

(** Nothing is left of a dict whose buckets all start at or before the
    start of the window. *)
Lemma cleanup_all_old (ws : Z) (d : gmap Z Z) :
  (∀ b c, d !! b = Some c → b ≤ ws) → cleanup ws d = ∅.
Proof.
  intros Hold. apply map_empty. intros b.
  apply eq_None_not_Some. intros [c Hc].
  apply cleanup_lookup_Some in Hc as [Hc Hlt].
  specialize (Hold _ _ Hc). lia.
Qed.

(** A bucket of the current clock minute survives the clean-up. *)
Lemma cleanup_current_minute (t m c : Z) :
  t `div` 60 = m → cleanup (t - default_window) {[ m * 60 := c ]} = {[ m * 60 := c ]}.
Proof.
  intros Hm. unfold cleanup. apply map_filter_singleton_True. simpl.
  unfold default_window. pose proof (Z.mod_pos_bound t 60 ltac:(lia)).
  pose proof (Z.div_mod t 60 ltac:(lia)). lia.
Qed.

Lemma check_in_minute_accepts (client_ip : str) (t m n : Z)
    (rc : gmap (list N) (gmap Z Z)) :
  t `div` 60 = m → in_minute m n (rc !!! client_ip) → n < default_limit →
  ∃ rc', check client_ip t rc = (true, rc')
         ∧ in_minute m (n + 1) (rc' !!! client_ip).
Proof.
  intros Hm Hin Hn. unfold check.
  rewrite check_rate_limit_unfold. simpl. rewrite Hm.
  destruct Hin as [[-> Hd]|[Hpos Hd]]; rewrite Hd.
  - unfold cleanup. rewrite map_filter_empty, total_empty.
    rewrite bool_decide_eq_false_2 by (unfold default_limit; lia).
    eexists. split; [done|]. rewrite lookup_total_insert_eq.
    right. split; [lia|]. by rewrite lookup_empty, insert_empty.
  - rewrite (cleanup_current_minute t m n Hm), total_singleton.
    rewrite bool_decide_eq_false_2 by lia.
    eexists. split; [done|]. rewrite lookup_total_insert_eq.
    right. split; [lia|].
    by rewrite lookup_singleton_eq, insert_singleton_eq.
Qed.

Lemma check_in_minute_rejects (client_ip : str) (t m n : Z)
    (rc : gmap (list N) (gmap Z Z)) :
  t `div` 60 = m → in_minute m n (rc !!! client_ip) → default_limit ≤ n →
  ∃ rc', check client_ip t rc = (false, rc')
         ∧ in_minute m n (rc' !!! client_ip).
Proof.
  intros Hm Hin Hn. unfold check.
  rewrite check_rate_limit_unfold. simpl.
  destruct Hin as [[-> Hd]|[Hpos Hd]]; [unfold default_limit in Hn; lia|].
  rewrite Hd, (cleanup_current_minute t m n Hm), total_singleton.
  rewrite bool_decide_eq_true_2 by lia.
  eexists. split; [done|]. rewrite lookup_total_insert_eq. by right.
Qed.

(** Requests of one clock minute are accepted while fewer than the
    limit have been counted. *)
Lemma replay_in_minute_accepts (client_ip : str) (m : Z) (times : list Z) :
  ∀ (n : Z) (rc : gmap (list N) (gmap Z Z)),
    Forall (λ t, t `div` 60 = m) times →
    in_minute m n (rc !!! client_ip) →
    n + Z.of_nat (length times) ≤ default_limit →
    ∃ rc', replay client_ip times rc = (replicate (length times) true, rc')
           ∧ in_minute m (n + Z.of_nat (length times)) (rc' !!! client_ip).
Proof.
  induction times as [|t times IH]; intros n rc Hall Hin Hn.
  - exists rc. split; [done|]. simpl. by rewrite Z.add_0_r.
  - apply Forall_cons in Hall as [Ht Hall]. simpl length in *.
    destruct (check_in_minute_accepts client_ip t m n rc Ht Hin ltac:(lia))
      as (rc1 & Hcheck & Hin1).
    destruct (IH (n + 1) rc1 Hall Hin1 ltac:(lia)) as (rc2 & Hreplay & Hin2).
    exists rc2. simpl. rewrite Hcheck, Hreplay. split; [done|].
    by replace (n + Z.of_nat (S (length times)))
      with (n + 1 + Z.of_nat (length times)) by lia.
Qed.

Lemma replay_app (client_ip : str) (ts1 ts2 : list Z)
    (rc : gmap (list N) (gmap Z Z)) :
  replay client_ip (ts1 ++ ts2) rc
  = let '(oks1, rc1) := replay client_ip ts1 rc in
    let '(oks2, rc2) := replay client_ip ts2 rc1 in
    (oks1 ++ oks2, rc2).
Proof.
  revert rc. induction ts1 as [|t ts1 IH]; intros rc; simpl.
  - by destruct (replay client_ip ts2 rc).
  - destruct (check client_ip t rc) as [ok rc0]. rewrite IH.
    destruct (replay client_ip ts1 rc0) as [oks1 rc1].
    by destruct (replay client_ip ts2 rc1).
Qed.

(** Every bucket a check leaves for the client starts inside the
    window. *)
Lemma check_keeps_recent (client_ip : str) (t : Z)
    (rc : gmap (list N) (gmap Z Z)) (b c : Z) :
  ((check client_ip t rc).2 !!! client_ip) !! b = Some c →
  t - default_window < b.
Proof.
  unfold check. rewrite check_rate_limit_unfold. simpl.
  case_bool_decide; simpl; rewrite lookup_total_insert_eq.
  - intros Hb%cleanup_lookup_Some. lia.
  - destruct (decide (b = t `div` 60 * 60)) as [->|Hne].
    + intros _. unfold default_window.
      pose proof (Z.mod_pos_bound t 60 ltac:(lia)).
      pose proof (Z.div_mod t 60 ltac:(lia)). lia.
    + rewrite lookup_insert_ne by done.
      intros Hb%cleanup_lookup_Some. lia.
Qed.

(** No bucket a check leaves starts after the clock reading, if none
    did before. *)
Lemma check_keys_bounded (client_ip : str) (t bound : Z)
    (rc : gmap (list N) (gmap Z Z)) :
  t ≤ bound →
  (∀ b c, (rc !!! client_ip) !! b = Some c → b ≤ bound) →
  ∀ b c, ((check client_ip t rc).2 !!! client_ip) !! b = Some c → b ≤ bound.
Proof.
  intros Ht Hrc b c. unfold check. rewrite check_rate_limit_unfold. simpl.
  case_bool_decide; simpl; rewrite lookup_total_insert_eq.
  - intros [Hb _]%cleanup_lookup_Some. eauto.
  - destruct (decide (b = t `div` 60 * 60)) as [->|Hne].
    + intros _. pose proof (Z.mod_pos_bound t 60 ltac:(lia)).
      pose proof (Z.div_mod t 60 ltac:(lia)). lia.
    + rewrite lookup_insert_ne by done.
      intros [Hb _]%cleanup_lookup_Some. eauto.
Qed.

Lemma replay_keys_bounded (client_ip : str) (bound : Z) (times : list Z) :
  ∀ rc : gmap (list N) (gmap Z Z),
    Forall (λ t, t ≤ bound) times →
    (∀ b c, (rc !!! client_ip) !! b = Some c → b ≤ bound) →
    ∀ b c, ((replay client_ip times rc).2 !!! client_ip) !! b = Some c →
           b ≤ bound.
Proof.
  induction times as [|t times IH]; intros rc Hall Hrc b c; simpl.
  - apply Hrc.
  - apply Forall_cons in Hall as [Ht Hall].
    pose proof (check_keys_bounded client_ip t bound rc Ht Hrc) as H1.
    destruct (check client_ip t rc) as [ok rc1]. simpl in H1.
    specialize (IH rc1 Hall H1 b c).
    by destruct (replay client_ip times rc1) as [oks rc2].
Qed.

(** A check is accepted when every bucket of the client starts at or
    before the start of the window. *)
Lemma check_accepts_when_old (client_ip : str) (t : Z)
    (rc : gmap (list N) (gmap Z Z)) :
  (∀ b c, (rc !!! client_ip) !! b = Some c → b ≤ t - default_window) →
  (check client_ip t rc).1 = true.
Proof.
  intros Hold. unfold check. rewrite check_rate_limit_unfold. simpl.
  rewrite (cleanup_all_old _ _ Hold), total_empty.
  by rewrite bool_decide_eq_false_2 by (unfold default_limit; lia).
Qed.

End RateLimitFacts.

(** C6, as the specification states it, fails: ten requests at clock
    reading 59 are accepted, and so is the eleventh at clock reading 60,
    one second later and well within the window of 60, because the bucket
    of the minute that began at 0 is dropped as soon as the clock shows
    60. *)
Lemma eleventh_within_window_accepted :
  ¬ RateLimit.eleventh_within_window_rejected.
Proof.
  intros H.
  specialize (H Scenario.client (replicate 10 59) 60 eq_refl).
  assert (Hin : Forall (λ x, x ≤ 60 ∧ 60 - x < RateLimit.default_window)
                  (replicate 10 59)).
  { apply Forall_replicate. unfold RateLimit.default_window. lia. }
  specialize (H Hin). vm_compute in H. discriminate H.
Qed.

(** C6, amended. With the default limit of 10 and window of 60 the
    limiter counts the requests of a client in buckets of one clock
    minute (the bucket of reading [t] starts at [t // 60 * 60]):
    every bucket a check leaves behind starts less than a window before
    the clock reading, so entries older than the window are pruned on each
    check; when eleven requests of a client with no entry on file fall in
    one clock minute, the first ten are accepted and the eleventh is
    rejected; and after any sequence of requests, a request arriving at
    least a window after each of them is accepted. *)
Theorem check_rate_limit_clock_minute
    (client_ip : str) (rc : gmap (list N) (gmap Z Z))
    (times : list Z) (t11 m : Z) :
  rc !!! client_ip = ∅ →
  length times = 10%nat →
  Forall (λ t, t `div` 60 = m) (times ++ [t11]) →
  (RateLimit.replay client_ip (times ++ [t11]) rc).1 = replicate 10 true ++ [false]
  ∧ (∀ t rc0 b c,
       ((RateLimit.check client_ip t rc0).2 !!! client_ip) !! b = Some c →
       t - RateLimit.default_window < b)
  ∧ (∀ history later,
       Forall (λ t, t + RateLimit.default_window ≤ later) history →
       (RateLimit.check client_ip later
          (RateLimit.replay client_ip history rc).2).1 = true).
Proof.
  intros Hempty Hlen Hall.
  apply Forall_app in Hall as [Hten Hlast].
  apply Forall_cons in Hlast as [Hlast _].
  split; [|split].
  - rewrite RateLimitFacts.replay_app.
    destruct (RateLimitFacts.replay_in_minute_accepts client_ip m times 0 rc
                Hten) as (rc1 & Hr & Hin).
    { left. by split. }
    { rewrite Hlen. unfold RateLimit.default_limit. lia. }
    rewrite Hr, Hlen. rewrite Hlen in Hin. simpl in Hin.
    destruct (RateLimitFacts.check_in_minute_rejects client_ip t11 m 10 rc1
                Hlast Hin) as (rc2 & Hc & _).
    { unfold RateLimit.default_limit. lia. }
    simpl. by rewrite Hc.
  - intros t rc0 b c. apply RateLimitFacts.check_keeps_recent.
  - intros history later Hold.
    apply RateLimitFacts.check_accepts_when_old.
    apply RateLimitFacts.replay_keys_bounded.
    + eapply Forall_impl; [exact Hold|]. simpl. intros; lia.
    + intros b c. by rewrite Hempty, lookup_empty.
Qed.

Lemma check_rate_limit_clock_minute_witness :
  (RateLimit.replay Scenario.client (replicate 10 0 ++ [59]) ∅).1
  = replicate 10 true ++ [false].
Proof.
  refine (proj1 (check_rate_limit_clock_minute Scenario.client ∅
    (replicate 10 0) 59 0 eq_refl eq_refl _)).
  repeat constructor.
Defined.

(** C10. A rejected call records nothing: when [check_rate_limit] answers
    false for a client, the counters after the call are the counters
    before it with that client's dict pruned and nothing else; every entry
    left for the client was there before with the same count, the other
    clients are untouched, and any later check of the client answers and
    leaves the counters exactly as if the rejected call had never been
    made, so a rejected request neither counts toward the window nor
    prolongs the time the client stays blocked. *)
Theorem rejected_request_not_recorded
    (client_ip : str) (limit window t : Z) (rc rc' : gmap (list N) (gmap Z Z)) :
  RateLimit.check_rate_limit client_ip limit window t rc = (false, rc') →
  rc' = <[ client_ip := RateLimit.cleanup (t - window) (rc !!! client_ip) ]> rc
  ∧ (∀ b c, (rc' !!! client_ip) !! b = Some c →
            (rc !!! client_ip) !! b = Some c)
  ∧ (∀ other, other ≠ client_ip → rc' !! other = rc !! other)
  ∧ (∀ limit' t', t ≤ t' →
       RateLimit.check_rate_limit client_ip limit' window t' rc'
       = RateLimit.check_rate_limit client_ip limit' window t' rc).
Proof.
  rewrite RateLimitFacts.check_rate_limit_unfold. simpl.
  case_bool_decide; [|discriminate]. intros [= <-].
  split; [done|]. split; [|split].
  - intros b c. rewrite lookup_total_insert_eq.
    by intros [Hb _]%RateLimitFacts.cleanup_lookup_Some.
  - intros other Hne. by rewrite lookup_insert_ne.
  - intros limit' t' Hle.
    rewrite !RateLimitFacts.check_rate_limit_unfold. simpl.
    rewrite lookup_total_insert_eq.
    rewrite RateLimitFacts.cleanup_cleanup by lia.
    by rewrite !insert_insert_eq.
Qed.

Lemma rejected_request_not_recorded_witness :
  let rc := (RateLimit.replay Scenario.client (replicate 10 0) ∅).2 in
  (RateLimit.check Scenario.client 5 rc).2
  = <[ Scenario.client :=
         RateLimit.cleanup (5 - RateLimit.default_window) (rc !!! Scenario.client) ]> rc.
Proof.
  refine (proj1 (rejected_request_not_recorded Scenario.client
    RateLimit.default_limit RateLimit.default_window 5
    (RateLimit.replay Scenario.client (replicate 10 0) ∅).2
    (RateLimit.check Scenario.client 5
       (RateLimit.replay Scenario.client (replicate 10 0) ∅).2).2 _)).
  vm_compute. reflexivity.
Defined.

(** ** The generators *)

Section GeneratorFacts.
Variable build : agent_kind → option exn.
Variable run_async : agent_kind → str → str → str → World → run.

Lemma bind_run {A B} (m : G A) (f : A → G B) (w : World) :
  (m ≫= f) w
  = match m w with
    | (t1, inl e, w1) => (t1, inl e, w1)
    | (t1, inr a, w1) => let '(t2, r, w2) := f a w1 in (t1 ++ t2, r, w2)
    end.
Proof. reflexivity. Qed.

Lemma yield_run {B} (e : sse) (k : () → G B) (w : World) :
  (yield e ≫= k) w = let '(t, x, w') := k () w in (Yield e :: t, x, w').
Proof. reflexivity. Qed.

Lemma yield_each_run {B} (es : list sse) (k : () → G B) (w : World) :
  (yield_each es ≫= k) w
  = let '(t, x, w') := k () w in ((Yield <$> es) ++ t, x, w').
Proof.
  assert (H : yield_each es w = (Yield <$> es, inr (), w)).
  { induction es as [|e es IH]; [done|].
    simpl. rewrite yield_run, IH. done. }
  rewrite bind_run, H. done.
Qed.

Lemma extract_pins_run {B} (user_id : str) (k : list sse → G B) (w : World) :
  (extract_pins user_id ≫= k) w
  = k (SendPinStore.extract_pins user_id (data w)).1
      (set_data w (SendPinStore.extract_pins user_id (data w)).2).
Proof.
  rewrite bind_run. unfold extract_pins.
  destruct (SendPinStore.extract_pins user_id (data w)) as [pins d]. simpl.
  by destruct (k pins (set_data w d)) as [[t x] w'].
Qed.

(** A failing builder ends the invocation before anything is logged. *)
Lemma invoke_not_built {B} agent q u s (k : list str → G B) w e :
  build agent = Some e →
  (invoke build run_async agent q u s ≫= k) w = ([], inl e, w).
Proof. intros He. rewrite bind_run. unfold invoke. by rewrite He. Qed.

(** An invocation of a built agent followed by [response[-1]]: the
    list is never empty, so the last element is always there. *)
Lemma invoke_last_run {B} agent q u s (k : str → G B) w :
  build agent = None →
  ∃ r m, Py.last_item r = Some m
    ∧ r = (CustomAgent.stream run_async agent q u s w).1
    ∧ (invoke build run_async agent q u s
         ≫= (λ response, last_of response ≫= k)) w
      = let '(t, x, w') := k m (CustomAgent.stream run_async agent q u s w).2 in
        (Invoke agent q u s r :: t, x, w').
Proof.
  intros Hb.
  destruct (CustomAgentFacts.stream_nonempty run_async agent q u s w)
    as (front & m & Hr).
  exists (front ++ [m]), m. split; [apply last_snoc|]. split; [done|].
  rewrite bind_run. unfold invoke. rewrite Hb.
  destruct (CustomAgent.stream run_async agent q u s w) as [r w1].
  simpl in Hr. subst r. rewrite bind_run. unfold last_of, Py.last_item.
  rewrite last_snoc. simpl.
  by destruct (k m w1) as [[t x] w'].
Qed.

Hypothesis built : ∀ agent, build agent = None.

(** The report loop: the slots report in order until one answers with the
    marker or the range is exhausted. *)
Lemma report_loop_run (pm uid sid : str) (n : nat) :
  ∀ (start : nat) (w : World),
    ∃ reports stopped w',
      report_loop build run_async (seq start n) pm uid sid w
      = (report_actions pm uid sid (S start) reports
           ++ break_action pm uid sid (S start + length reports) stopped,
         inr (), w')
      ∧ (length reports + match stopped with Some _ => 1 | None => 0 end ≤ n)%nat
      ∧ (stopped = None → length reports = n)
      ∧ Forall (λ rm, Py.last_item rm.1 = Some rm.2
                      ∧ Py.contains no_output rm.2 = false) reports
      ∧ (∀ rm, stopped = Some rm →
               Py.last_item rm.1 = Some rm.2
               ∧ Py.contains no_output rm.2 = true).
Proof.
  induction n as [|n IH]; intros start w.
  - exists [], None, w. simpl. split_and!; try done; lia.
  - simpl seq. cbn [report_loop]. rewrite Nat.add_1_r.
    destruct (invoke_last_run (report_agent (S start)) pm uid sid
      (λ message, if Py.contains no_output message then mret ()
                  else yield (agent_response message);;
                       report_loop build run_async (seq (S start) n) pm uid sid)
      w (built _)) as (r & m & Hlast & _ & ->).
    set (w1 := (CustomAgent.stream run_async (report_agent (S start)) pm uid sid w).2).
    destruct (Py.contains no_output m) eqn:Hc.
    + exists [], (Some (r, m)), w1. simpl. rewrite Nat.add_0_r.
      split_and!; try done; try lia.
      by intros rm [= <-].
    + rewrite yield_run.
      destruct (IH (S start) w1)
        as (reports & stopped & w' & -> & Hlen & Hfull & Hall & Hstop).
      exists ((r, m) :: reports), stopped, w'. simpl.
      rewrite Nat.add_succ_r.
      split_and!; try done; try lia.
      * intros Hs. by rewrite (Hfull Hs).
      * by constructor.
Qed.

(** The same, as an equation: the last element is named through
    [default], and is there by [stream_nonempty]. *)
Lemma invoke_last_eq {B} agent q u s (k : str → G B) w :
  (invoke build run_async agent q u s
     ≫= (λ response, last_of response ≫= k)) w
  = let '(t, x, w') :=
      k (default [] (Py.last_item (CustomAgent.stream run_async agent q u s w).1))
        (CustomAgent.stream run_async agent q u s w).2 in
    (Invoke agent q u s (CustomAgent.stream run_async agent q u s w).1 :: t,
     x, w').
Proof.
  destruct (invoke_last_run agent q u s k w (built _))
    as (r & m & Hlast & -> & ->).
  by rewrite Hlast.
Qed.

Lemma stream_last agent q u s w :
  Py.last_item (CustomAgent.stream run_async agent q u s w).1
  = Some (default [] (Py.last_item (CustomAgent.stream run_async agent q u s w).1)).
Proof.
  destruct (CustomAgentFacts.stream_nonempty run_async agent q u s w)
    as (front & m & ->).
  unfold Py.last_item. by rewrite last_snoc.
Qed.

(** The trace of the first-turn pipeline when every agent is built. *)
Lemma first_conversation_trace (msg uid sid : str) (w : World) :
  let s1 := CustomAgent.stream run_async station_agent msg uid sid w in
  let x1 := SendPinStore.extract_pins uid (data s1.2) in
  let s2 := CustomAgent.stream run_async suggest_agent msg uid sid
              (set_data s1.2 x1.2) in
  ∃ pin_message suggestion_message,
    Py.last_item s1.1 = Some pin_message
    ∧ Py.last_item s2.1 = Some suggestion_message
    ∧ let s3 := CustomAgent.stream run_async multiple_pin_station_agent
                  suggestion_message uid sid s2.2 in
      let x3 := SendPinStore.extract_pins uid (data s3.2) in
      ∃ pins_message reports stopped r5 followup w',
        Py.last_item s3.1 = Some pins_message
        ∧ Py.last_item r5 = Some followup
        ∧ (length reports + match stopped with Some _ => 1 | None => 0 end ≤ 3)%nat
        ∧ (stopped = None → length reports = 3%nat)
        ∧ Forall (λ rm, Py.last_item rm.1 = Some rm.2
                        ∧ Py.contains no_output rm.2 = false) reports
        ∧ (∀ rm, stopped = Some rm →
                 Py.last_item rm.1 = Some rm.2
                 ∧ Py.contains no_output rm.2 = true)
        ∧ _generate_first_conversation build run_async msg uid sid w
          = (Invoke station_agent msg uid sid s1.1
               :: (Yield <$> x1.1)
               ++ [Yield (agent_response pin_message);
                   Invoke suggest_agent msg uid sid s2.1;
                   Yield (agent_response suggestion_message);
                   Invoke multiple_pin_station_agent suggestion_message uid sid s3.1;
                   Yield (agent_response pins_message)]
               ++ (Yield <$> x3.1)
               ++ report_actions pins_message uid sid 1 reports
               ++ break_action pins_message uid sid (1 + length reports) stopped
               ++ [Invoke followup_agent suggestion_message uid sid r5;
                   Yield (agent_response followup)],
             inr (), w').
Proof.
  intros s1 x1 s2.
  exists (default [] (Py.last_item s1.1)), (default [] (Py.last_item s2.1)).
  split; [apply stream_last|]. split; [apply stream_last|].
  intros s3 x3.
  destruct (report_loop_run
    (default [] (Py.last_item s3.1)) uid sid 3 0 (set_data s3.2 x3.2))
    as (reports & stopped & w4 & Hrep & Hlen & Hfull & Hall & Hstop).
  set (s5 := CustomAgent.stream run_async followup_agent
               (default [] (Py.last_item s2.1)) uid sid w4).
  exists (default [] (Py.last_item s3.1)), reports, stopped, s5.1,
    (default [] (Py.last_item s5.1)), s5.2.
  split; [apply stream_last|]. split; [apply stream_last|].
  split_and!; try done.
  unfold _generate_first_conversation.
  rewrite invoke_last_eq. fold s1.
  rewrite extract_pins_run. fold x1.
  rewrite yield_each_run, yield_run.
  rewrite invoke_last_eq. fold s2.
  rewrite yield_run.
  rewrite invoke_last_eq. fold s3.
  rewrite yield_run, extract_pins_run. fold x3.
  rewrite yield_each_run, bind_run, Hrep.
  rewrite invoke_last_eq. fold s5.
  simpl. by rewrite <- !app_assoc.
Qed.

End GeneratorFacts.

(** ** Validation of the request body *)

Section ValidationFacts.
Variable unicode_alnum : N → bool.

Lemma remove_separators_nil (v : str) :
  Forall (λ c, c = 45%N ∨ c = 95%N) v →
  Py.remove_char 95 (Py.remove_char 45 v) = [].
Proof.
  unfold Py.remove_char.
  induction 1 as [|c v [-> | ->] _ IH]; [done| |].
  - rewrite (filter_cons_False _ 45%N) by (simpl; intros H; by apply H).
    exact IH.
  - rewrite (filter_cons_True _ 95%N) by done.
    rewrite (filter_cons_False _ 95%N) by (simpl; intros H; by apply H).
    exact IH.
Qed.

Lemma check_length_ok (field : string) (lo hi : nat) (v : str) :
  (lo ≤ length v ≤ hi)%nat → check_length field lo hi v = None.
Proof.
  intros [Hlo Hhi]. unfold check_length.
  destruct (Nat.ltb_spec (length v) lo); [lia|].
  destruct (Nat.ltb_spec hi (length v)); [lia|done].
Qed.

Lemma check_length_long (field : string) (lo hi : nat) (v : str) :
  (lo ≤ hi < length v)%nat →
  check_length field lo hi v = Some (string_too_long field).
Proof.
  intros [Hlo Hhi]. unfold check_length.
  destruct (Nat.ltb_spec (length v) lo); [lia|].
  destruct (Nat.ltb_spec hi (length v)); [done|lia].
Qed.

(** A message of more than 1000 characters is refused, whatever the
    session id. *)
Lemma message_too_long_rejected (raw_message raw_session_id : str) :
  (1000 < length raw_message)%nat →
  ∃ errors, validate unicode_alnum raw_message raw_session_id = inl errors
            ∧ string_too_long "message" ∈ errors.
Proof.
  intros Hlen. unfold validate, validate_field at 1.
  rewrite check_length_long by lia.
  destruct (validate_field _ _ _ _ raw_session_id);
    eexists; (split; [done|]); apply list_elem_of_here.
Qed.

(** What [lstrip] leaves of a string of white space. *)
Lemma lstrip_whitespace (v : str) :
  forallb Py.isspace v = true → Py.lstrip v = [].
Proof.
  induction v as [|c v IH]; [done|]. simpl.
  intros [Hc Hv]%andb_prop. rewrite Hc. by apply IH.
Qed.

(** A message of 1 to 1000 characters, all of them white space, passes
    the validation and becomes the empty message. *)
Lemma whitespace_message_validates (raw_message raw_session_id sid : str) :
  (1 ≤ length raw_message ≤ 1000)%nat →
  forallb Py.isspace raw_message = true →
  validate_field "session_id" 1 100 (validate_session_id unicode_alnum)
    raw_session_id = inr sid →
  validate unicode_alnum raw_message raw_session_id
  = inr {| message := []; session_id := sid |}.
Proof.
  intros Hlen Hws Hsid. unfold validate. rewrite Hsid.
  unfold validate_field. rewrite check_length_ok by done.
  unfold sanitize_message, Py.strip.
  by rewrite (lstrip_whitespace raw_message) by done.
Qed.

End ValidationFacts.

(** C9. A session id made only of hyphens and underscores is refused
    although its length is within 1..100 and each of its characters is
    allowed: once the hyphens and underscores are removed nothing is left,
    and the empty string is not alphanumeric; the request is rejected with
    the session id error whatever the message is. *)
Theorem separators_only_session_id_rejected
    (unicode_alnum : N → bool) (raw_message v : str) :
  Forall (λ c, c = 45%N ∨ c = 95%N) v →
  (1 ≤ length v ≤ 100)%nat →
  Py.remove_char 95 (Py.remove_char 45 v) = []
  ∧ validate_session_id unicode_alnum v
    = inl (value_error "session_id"
        "session_id must contain only alphanumeric characters, hyphens, and underscores")
  ∧ ∃ errors,
      validate unicode_alnum raw_message v = inl errors
      ∧ value_error "session_id"
          "session_id must contain only alphanumeric characters, hyphens, and underscores"
        ∈ errors.
Proof.
  intros Hsep Hlen.
  pose proof (remove_separators_nil v Hsep) as Hnil.
  assert (Hv : validate_session_id unicode_alnum v
    = inl (value_error "session_id"
        "session_id must contain only alphanumeric characters, hyphens, and underscores")).
  { unfold validate_session_id. by rewrite Hnil. }
  split; [done|]. split; [done|].
  assert (Hf : validate_field "session_id" 1 100
                 (validate_session_id unicode_alnum) v
    = inl (value_error "session_id"
        "session_id must contain only alphanumeric characters, hyphens, and underscores")).
  { unfold validate_field. by rewrite check_length_ok by done. }
  unfold validate. rewrite Hf.
  destruct (validate_field _ _ _ _ raw_message); simpl;
    eexists; (split; [reflexivity|]).
  - apply list_elem_of_further, list_elem_of_here.
  - apply list_elem_of_here.
Qed.

Lemma separators_only_session_id_rejected_witness :
  validate_session_id Scenario.ascii_only (Py.u "---")
  = inl (value_error "session_id"
      "session_id must contain only alphanumeric characters, hyphens, and underscores").
Proof.
  refine (proj1 (proj2 (separators_only_session_id_rejected
    Scenario.ascii_only (Py.u "hello") (Py.u "---") _ _))).
  - repeat constructor.
  - vm_compute. lia.
Defined.

(** C7, where the code departs from it. A message of white space only is
    NOT refused: the length limits of the field are checked on the text as
    sent, and [sanitize_message] trims it afterwards, so the request is
    accepted with an empty message, and the first-turn pipeline invokes
    the station agent with the empty query. *)
Theorem whitespace_message_accepted (unicode_alnum : N → bool) :
  validate unicode_alnum (Py.u "   ") (Py.u "abc-123_ok")
  = inr {| message := []; session_id := Py.u "abc-123_ok" |}
  ∧ ∃ trace w',
      chat unicode_alnum Scenario.all_built Scenario.script
        (Py.u "   ") (Py.u "abc-123_ok") Scenario.client 1000
        Scenario.empty_world
      = (StreamingResponse trace Done, w')
      ∧ head (invocations trace) = Some (station_agent, []).
Proof.
  split; [reflexivity|].
  eexists _, _. split; [vm_compute; reflexivity|]. reflexivity.
Qed.

(** ** The two pipelines and the choice between them *)

Section PipelineFacts.
Variable build : agent_kind → option exn.
Variable run_async : agent_kind → str → str → str → World → run.

(** The continuation pipeline when the estate agent is built. *)
Lemma after_second_trace (msg uid sid : str) (w : World) :
  build estate_agent = None →
  let s := CustomAgent.stream run_async estate_agent msg uid sid w in
  let x := SendPinStore.extract_pins uid (data s.2) in
  ∃ message,
    Py.last_item s.1 = Some message
    ∧ _generate_after_second_conversations build run_async msg uid sid w
      = (Invoke estate_agent msg uid sid s.1
           :: (Yield <$> x.1) ++ [Yield (agent_response message)],
         inr (), set_data s.2 x.2).
Proof.
  intros Hb s x.
  unfold _generate_after_second_conversations, try_except.
  destruct (invoke_last_run build run_async estate_agent msg uid sid
    (λ message, pins ← extract_pins uid;
                yield_each pins;; yield (agent_response message))
    w Hb) as (r & m & Hlast & -> & ->).
  exists m. split; [done|]. fold s.
  rewrite extract_pins_run. fold x. by rewrite yield_each_run.
Qed.

(** The continuation pipeline when the estate agent cannot be built. *)
Lemma after_second_not_built (msg uid sid : str) (w : World) (e : exn) :
  build estate_agent = Some e →
  _generate_after_second_conversations build run_async msg uid sid w
  = ([Yield (error_event e)], inr (), w).
Proof.
  intros He. unfold _generate_after_second_conversations, try_except.
  by rewrite (invoke_not_built build run_async _ _ _ _ _ _ e He).
Qed.

(** The continuation pipeline never ends by raising. *)
Lemma after_second_ends_done (msg uid sid : str) (w : World) :
  (_generate_after_second_conversations build run_async msg uid sid w).1.2
  = inr ().
Proof.
  unfold _generate_after_second_conversations, try_except.
  destruct ((invoke build run_async estate_agent msg uid sid ≫= _) w)
    as [[t [e|[]]] w1]; reflexivity.
Qed.

(** The first-turn pipeline when the station agent cannot be built. *)
Lemma first_conversation_not_built (msg uid sid : str) (w : World) (e : exn) :
  build station_agent = Some e →
  _generate_first_conversation build run_async msg uid sid w = ([], inl e, w).
Proof.
  intros He. unfold _generate_first_conversation.
  by rewrite (invoke_not_built build run_async _ _ _ _ _ _ e He).
Qed.

(** [stream] leaves the conversation on file. *)
Lemma stream_registers (agent : agent_kind) (q uid sid : str) (w : World) :
  check_conversation_if_exist
    (sessions (CustomAgent.stream run_async agent q uid sid w).2)
    CustomAgent.MODEL uid sid = true.
Proof.
  assert (Hs : check_conversation_if_exist
    (sessions (CustomAgent._session uid sid w).2) CustomAgent.MODEL uid sid = true).
  { unfold CustomAgent._session.
    destruct (check_conversation_if_exist (sessions w) _ uid sid) eqn:E; [done|].
    unfold create_session, check_conversation_if_exist. simpl.
    rewrite !lookup_insert_eq. by apply bool_decide_eq_true_2. }
  unfold CustomAgent.stream.
  destruct (CustomAgent._session uid sid w) as [s w1]. simpl in Hs.
  destruct (CustomAgent.consume _ _ _) as [result d].
  destruct (raised _); [done|]. by destruct result.
Qed.

Lemma invocations_app (t1 t2 : list action) :
  invocations (t1 ++ t2) = invocations t1 ++ invocations t2.
Proof. apply omap_app. Qed.

Lemma invocations_yields (es : list sse) : invocations (Yield <$> es) = [].
Proof. induction es as [|e es IH]; [done|]. exact IH. Qed.

Lemma invocations_report_actions (pm uid sid : str) (reports : list (list str * str)) :
  ∀ slot,
    invocations (report_actions pm uid sid slot reports)
    = (λ i, (report_agent i, pm)) <$> seq slot (length reports).
Proof.
  induction reports as [|[r m] reports IH]; intros slot; [done|].
  change (invocations (report_actions pm uid sid slot ((r, m) :: reports)))
    with ((report_agent slot, pm)
            :: invocations (report_actions pm uid sid (S slot) reports)).
  by rewrite IH.
Qed.

Lemma events_app (t1 t2 : list action) :
  events (t1 ++ t2) = events t1 ++ events t2.
Proof. apply omap_app. Qed.

Lemma events_yields (es : list sse) : events (Yield <$> es) = es.
Proof.
  induction es as [|e es IH]; [done|].
  change (events (Yield <$> e :: es)) with (e :: events (Yield <$> es)).
  by rewrite IH.
Qed.

Lemma events_report_actions (pm uid sid : str) (reports : list (list str * str)) :
  ∀ slot,
    events (report_actions pm uid sid slot reports)
    = (λ rm, agent_response rm.2) <$> reports.
Proof.
  induction reports as [|[r m] reports IH]; intros slot; [done|].
  change (events (report_actions pm uid sid slot ((r, m) :: reports)))
    with (agent_response m
            :: events (report_actions pm uid sid (S slot) reports)).
  by rewrite IH.
Qed.

Lemma events_break_action (pm uid sid : str) (slot : nat) stopped :
  events (break_action pm uid sid slot stopped) = [].
Proof. by destruct stopped as [[r m]|]. Qed.

Lemma contains_self (s : str) : Py.contains s s = true.
Proof.
  assert (H : Py.startswith s s = true).
  { induction s as [|c s IH]; [done|]. simpl. by rewrite N.eqb_refl. }
  destruct s; simpl in *; [done|]. by rewrite H.
Qed.

Hypothesis built : ∀ agent, build agent = None.

(** The agents the first-turn pipeline invokes, with their queries. *)
Lemma first_conversation_invocations (msg uid sid : str) (w : World) :
  ∃ (k : nat) (suggestion_message pins_message : str),
    (k ≤ 3)%nat
    ∧ invocations (_generate_first_conversation build run_async msg uid sid w).1.1
      = [(station_agent, msg); (suggest_agent, msg);
         (multiple_pin_station_agent, suggestion_message)]
        ++ ((λ i, (report_agent i, pins_message)) <$> seq 1 k)
        ++ [(followup_agent, suggestion_message)].
Proof.
  destruct (first_conversation_trace build run_async built msg uid sid w)
    as (m1 & sug & _ & _ & pm & reports & stopped & r5 & fu & w'
        & _ & _ & Hlen & _ & _ & _ & ->).
  exists (length reports + match stopped with Some _ => 1 | None => 0 end)%nat,
    sug, pm.
  split; [done|]. cbn [fst snd].
  change (invocations (?a :: ?t)) with (invocations ([a] ++ t)).
  rewrite !invocations_app, !invocations_yields, invocations_report_actions.
  destruct stopped as [[r m]|]; simpl.
  - rewrite seq_app, fmap_app. simpl. by rewrite <- app_assoc.
  - by rewrite Nat.add_0_r.
Qed.

End PipelineFacts.

(** ** No [error] line outside the guard *)

Section NoErrorFacts.
Variable build : agent_kind → option exn.
Variable run_async : agent_kind → str → str → str → World → run.

Lemma agent_response_not_error (m : str) : not_error (agent_response m).
Proof. unfold not_error. vm_compute. by intros [=]. Qed.

Lemma pin_line_not_error (j : json) : is_pin j → not_error (Data j).
Proof.
  unfold is_pin, not_error, event_type, field. simpl. intros ->.
  vm_compute. by intros [=].
Qed.

Lemma insert_pins_pins_only (uid : str) (pin : SendPin)
    (d : gmap (list N) (list json)) :
  pins_only d → pins_only (SendPinStore.insert_pins uid pin d).
Proof.
  intros Hd u q. unfold SendPinStore.insert_pins.
  destruct (decide (uid = u)) as [->|Hne].
  - rewrite lookup_insert_eq. intros [= <-].
    apply Forall_app. split; [|by repeat constructor].
    rewrite lookup_total_alt. destruct (d !! u) as [q|] eqn:E; [|done].
    by apply (Hd u).
  - rewrite lookup_insert_ne by done. apply Hd.
Qed.

Lemma consume_pins_only (ss : list run_step) :
  ∀ acc (d : gmap (list N) (list json)),
    pins_only d → pins_only (CustomAgent.consume ss acc d).2.
Proof.
  induction ss as [|[e|u p] ss IH]; intros acc d Hd; simpl; [done| |].
  - destruct (CustomAgent.event_response e); by apply IH.
  - by apply IH, insert_pins_pins_only.
Qed.

Lemma stream_pins_only (agent : agent_kind) (q u s : str) (w : World) :
  pins_only (data w) →
  pins_only (data (CustomAgent.stream run_async agent q u s w).2).
Proof.
  intros Hw. unfold CustomAgent.stream.
  assert (Hs : pins_only (data (CustomAgent._session u s w).2)).
  { unfold CustomAgent._session.
    destruct (check_conversation_if_exist _ _ _ _); [done|].
    by destruct (create_session _ _ _ _). }
  destruct (CustomAgent._session u s w) as [ss w1]. simpl in Hs.
  pose proof (consume_pins_only
    (steps (run_async agent q u (id ss) w1)) [] (data w1) Hs) as Hc.
  destruct (CustomAgent.consume _ _ _) as [result d]. simpl in Hc.
  destruct (raised _); [done|]. by destruct result.
Qed.

Lemma no_error_ret {A} (a : A) (Q : A → Prop) :
  Q a → yields_no_error (mret a) Q.
Proof. intros Ha w Hw. split_and!; [done|constructor|]. by intros ? [= <-]. Qed.

Lemma no_error_bind {A B} (m : G A) (f : A → G B) (Q : A → Prop) (R : B → Prop) :
  yields_no_error m Q →
  (∀ a, Q a → yields_no_error (f a) R) →
  yields_no_error (m ≫= f) R.
Proof.
  intros Hm Hf w Hw. rewrite bind_run.
  destruct (Hm w Hw) as (H1 & H2 & H3).
  destruct (m w) as [[t1 [e|a]] w1]; simpl in *.
  - split_and!; [done..|]. by intros ? [=].
  - destruct (Hf a (H3 a eq_refl) w1 H1) as (H4 & H5 & H6).
    destruct (f a w1) as [[t2 r] w2]; simpl in *.
    split_and!; [done| |done].
    unfold events in *. rewrite omap_app. by apply Forall_app.
Qed.

Lemma no_error_yield (e : sse) :
  not_error e → yields_no_error (yield e) (λ _, True).
Proof. intros He w Hw. split_and!; [done|by repeat constructor|done]. Qed.

Lemma no_error_yield_each (es : list sse) :
  Forall not_error es → yields_no_error (yield_each es) (λ _, True).
Proof.
  induction 1 as [|e es He _ IH]; simpl.
  - by apply no_error_ret.
  - eapply no_error_bind; [by apply no_error_yield|]. intros _ _. exact IH.
Qed.

Lemma no_error_extract_pins (uid : str) :
  yields_no_error (extract_pins uid) (Forall not_error).
Proof.
  intros w Hw. unfold extract_pins, SendPinStore.extract_pins.
  destruct (data w !! uid) as [q|] eqn:E; simpl.
  - split_and!; [|constructor|].
    + intros u q'. destruct (decide (uid = u)) as [->|Hne].
      * rewrite lookup_insert_eq. by intros [= <-].
      * rewrite lookup_insert_ne by done. apply Hw.
    + intros a [= <-]. rewrite PinStoreFacts.pop_all_app. simpl.
      apply Forall_fmap, Forall_reverse.
      eapply Forall_impl; [exact (Hw _ _ E)|].
      intros j Hj. by apply pin_line_not_error.
  - split_and!; [done|constructor|]. by intros a [= <-].
Qed.

Lemma no_error_invoke (agent : agent_kind) (q u s : str) :
  yields_no_error (invoke build run_async agent q u s) (λ _, True).
Proof.
  intros w Hw. unfold invoke. destruct (build agent); [by split_and!|].
  pose proof (stream_pins_only agent q u s w Hw) as Hs.
  destruct (CustomAgent.stream run_async agent q u s w) as [r w1].
  by split_and!.
Qed.

Lemma no_error_last_of (r : list str) :
  yields_no_error (last_of r) (λ _, True).
Proof.
  intros w Hw. unfold last_of. destruct (Py.last_item r); by split_and!.
Qed.

Lemma no_error_report_loop (range : list nat) (pm uid sid : str) :
  yields_no_error (report_loop build run_async range pm uid sid) (λ _, True).
Proof.
  induction range as [|i range IH]; simpl.
  - by apply no_error_ret.
  - eapply no_error_bind; [apply no_error_invoke|]. intros r _.
    eapply no_error_bind; [apply no_error_last_of|]. intros m _.
    destruct (Py.contains no_output m); [by apply no_error_ret|].
    eapply no_error_bind; [apply no_error_yield, agent_response_not_error|].
    intros _ _. exact IH.
Qed.

(** The first-turn pipeline yields no [error] line, whichever builders
    fail. *)
Lemma first_conversation_no_error (msg uid sid : str) :
  yields_no_error (_generate_first_conversation build run_async msg uid sid)
    (λ _, True).
Proof.
  unfold _generate_first_conversation.
  repeat first
    [ apply no_error_yield, agent_response_not_error
    | eapply no_error_bind;
      [ first [ apply no_error_invoke | apply no_error_last_of
              | apply no_error_extract_pins
              | apply no_error_yield, agent_response_not_error
              | apply no_error_report_loop
              | by apply no_error_yield_each ]
      | intros ? ? ] ].
Qed.

End NoErrorFacts.

(** C2. The pipeline is chosen once. For a request that passes validation
    and the rate limit, [chat] looks up the conversation of the agent name
    MODEL under the request's session id (used as user id and as session
    id) a single time, before the stream starts, and streams the
    continuation generator if it is on file and the first-turn generator
    if it is not. With every agent built, the continuation branch invokes
    the estate agent and nothing else; the first-turn branch invokes the
    station, suggestion and multiple-pin agents, up to three report agents
    in slot order and the follow-up agent, and never the estate agent,
    although the conversation is on file as soon as its first step has
    run: the choice is not made again during the stream. *)
Theorem chat_selects_pipeline_once
    (unicode_alnum : N → bool) (build : agent_kind → option exn)
    (run_async : agent_kind → str → str → str → World → run)
    (raw_message raw_session_id client_ip : str) (now : Z) (w : World)
    (request : ChatRequest) (rc : gmap (list N) (gmap Z Z)) :
  (∀ agent, build agent = None) →
  validate unicode_alnum raw_message raw_session_id = inr request →
  RateLimit.check client_ip now (request_counts w) = (true, rc) →
  let w1 := set_request_counts w rc in
  let uid := session_id request in
  let marker :=
    check_conversation_if_exist (sessions w) CustomAgent.MODEL uid uid in
  let run :=
    if marker
    then _generate_after_second_conversations build run_async
           (message request) uid uid w1
    else _generate_first_conversation build run_async
           (message request) uid uid w1 in
  chat unicode_alnum build run_async raw_message raw_session_id client_ip now w
  = (StreamingResponse run.1.1 Done, run.2)
  ∧ (marker = true →
     invocations run.1.1 = [(estate_agent, message request)])
  ∧ (marker = false →
     ∃ (k : nat) (suggestion_message pins_message : str),
       (k ≤ 3)%nat
       ∧ invocations run.1.1
         = [(station_agent, message request);
            (suggest_agent, message request);
            (multiple_pin_station_agent, suggestion_message)]
           ++ ((λ i, (report_agent i, pins_message)) <$> seq 1 k)
           ++ [(followup_agent, suggestion_message)]
       ∧ check_conversation_if_exist
           (sessions (CustomAgent.stream run_async station_agent
                        (message request) uid uid w1).2)
           CustomAgent.MODEL uid uid = true).
Proof.
  intros built Hvalid Hrate w1 uid marker run.
  split; [|split].
  - unfold chat. rewrite Hvalid, Hrate. cbn [negb].
    change (check_conversation_if_exist (sessions (set_request_counts w rc))
              (Py.u "MODEL") (session_id request) (session_id request))
      with marker.
    fold w1 uid. unfold run. destruct marker.
    + pose proof (after_second_ends_done build run_async
        (message request) uid uid w1) as Hend.
      destruct (_generate_after_second_conversations _ _ _ _ _ _)
        as [[t r] w2]. simpl in Hend. by subst r.
    + destruct (first_conversation_trace build run_async built
        (message request) uid uid w1)
        as (m1 & sug & _ & _ & pm & reports & stopped & r5 & fu & w'
            & _ & _ & _ & _ & _ & _ & ->). done.
  - intros Hm. unfold run. rewrite Hm.
    destruct (after_second_trace build run_async (message request) uid uid w1
      (built _)) as (m & _ & ->).
    cbn [fst snd]. change (invocations (?a :: ?t)) with (invocations ([a] ++ t)).
    by rewrite !invocations_app, invocations_yields.
  - intros Hm. unfold run. rewrite Hm.
    destruct (first_conversation_invocations build run_async built
      (message request) uid uid w1) as (k & sug & pm & Hk & Hinv).
    exists k, sug, pm. split; [done|]. split; [done|].
    apply stream_registers.
Qed.

Lemma chat_selects_pipeline_once_witness :
  (chat Scenario.ascii_only Scenario.all_built Scenario.script
     (Py.u "go") Scenario.sess_1 Scenario.client 1000 Scenario.empty_world).1
  = StreamingResponse
      (_generate_first_conversation Scenario.all_built Scenario.script
         (Py.u "go") Scenario.sess_1 Scenario.sess_1
         (set_request_counts Scenario.empty_world
            (RateLimit.check Scenario.client 1000 ∅).2)).1.1
      Done.
Proof.
  refine (f_equal fst (proj1 (chat_selects_pipeline_once
    Scenario.ascii_only Scenario.all_built Scenario.script
    (Py.u "go") Scenario.sess_1 Scenario.client 1000 Scenario.empty_world
    {| message := Py.u "go"; session_id := Scenario.sess_1 |}
    (RateLimit.check Scenario.client 1000 ∅).2
    (λ _, eq_refl) eq_refl _))).
  vm_compute. reflexivity.
Defined.

(** C5. The report loop of the first-turn pipeline. With every agent
    built, the trace of the pipeline is: the LOCATE steps (the only agent
    invoked there is the station agent), the suggestion agent and its
    event (its last output is [suggestion_message]), the multiple-pin
    agent invoked with [suggestion_message] and its event (its last output
    is [pins_message]), the pins drained there, then the report section
    and finally the follow-up agent, invoked with [suggestion_message],
    and its event. The report section runs the report agents of slots 1,
    2, 3 in that order, each invoked with [pins_message]: every slot whose
    last output does not hold the marker (so is not the marker) is
    followed by its event; the first slot whose last output holds the
    marker has no event, ends the section and is followed at once by the
    follow-up step, so at most three slots run, and when slot 1 answers
    with the marker there is no report event at all. *)
Theorem report_loop_early_termination
    (build : agent_kind → option exn)
    (run_async : agent_kind → str → str → str → World → run)
    (msg uid sid : str) (w : World) :
  (∀ agent, build agent = None) →
  ∃ locate r2 suggestion_message r3 pins_message pins
    reports stopped r5 followup w',
    _generate_first_conversation build run_async msg uid sid w
    = (locate
         ++ [Invoke suggest_agent msg uid sid r2;
             Yield (agent_response suggestion_message);
             Invoke multiple_pin_station_agent suggestion_message uid sid r3;
             Yield (agent_response pins_message)]
         ++ (Yield <$> pins)
         ++ report_actions pins_message uid sid 1 reports
         ++ break_action pins_message uid sid (1 + length reports) stopped
         ++ [Invoke followup_agent suggestion_message uid sid r5;
             Yield (agent_response followup)],
       inr (), w')
    ∧ invocations locate = [(station_agent, msg)]
    ∧ Py.last_item r2 = Some suggestion_message
    ∧ Py.last_item r3 = Some pins_message
    ∧ (length reports + match stopped with Some _ => 1 | None => 0 end ≤ 3)%nat
    ∧ (stopped = None → length reports = 3%nat)
    ∧ Forall (λ rm, Py.last_item rm.1 = Some rm.2
                    ∧ Py.contains no_output rm.2 = false
                    ∧ rm.2 ≠ no_output) reports
    ∧ (∀ rm, stopped = Some rm →
             Py.last_item rm.1 = Some rm.2
             ∧ Py.contains no_output rm.2 = true)
    ∧ events (report_actions pins_message uid sid 1 reports
                ++ break_action pins_message uid sid (1 + length reports) stopped)
      = (λ rm, agent_response rm.2) <$> reports
    ∧ (∀ rm, stopped = Some rm → reports = [] →
         events (report_actions pins_message uid sid 1 reports
                   ++ break_action pins_message uid sid (1 + length reports) stopped)
         = []).
Proof.
  intros built.
  destruct (first_conversation_trace build run_async built msg uid sid w)
    as (m1 & sug & Hm1 & Hsug & pm & reports & stopped & r5 & fu & w'
        & Hpm & Hfu & Hlen & Hfull & Hall & Hstop & Hrun).
  eexists (Invoke station_agent msg uid sid _ :: (Yield <$> _)
           ++ [Yield (agent_response m1)]),
    _, sug, _, pm, _, reports, stopped, r5, fu, w'.
  split_and!.
  - rewrite Hrun. simpl. by rewrite <- !app_assoc.
  - change (invocations (?a :: ?t)) with (invocations ([a] ++ t)).
    by rewrite !invocations_app, invocations_yields.
  - exact Hsug.
  - exact Hpm.
  - exact Hlen.
  - exact Hfull.
  - eapply Forall_impl; [exact Hall|]. intros [r m] (Hl & Hc). simpl in *.
    split_and!; [done..|]. intros ->. by rewrite contains_self in Hc.
  - exact Hstop.
  - by rewrite events_app, events_report_actions, events_break_action, app_nil_r.
  - intros rm _ ->. by rewrite events_app, events_break_action.
Qed.

Lemma report_loop_early_termination_witness :
  events (_generate_first_conversation Scenario.all_built Scenario.script
            (Py.u "go") Scenario.sess_1 Scenario.sess_1 Scenario.empty_world).1.1
  ≠ [].
Proof.
  destruct (report_loop_early_termination Scenario.all_built Scenario.script
    (Py.u "go") Scenario.sess_1 Scenario.sess_1 Scenario.empty_world
    (λ _, eq_refl)) as (locate & r2 & sug & r3 & pm & pins & reports & stopped
                        & r5 & fu & w' & Hrun & _).
  rewrite Hrun. cbn [fst snd]. rewrite !events_app. simpl.
  intros H. by apply app_eq_nil in H as [_ [=]].
Defined.

(** C8. The guard of the continuation pipeline. If building the estate
    agent raises, the continuation generator yields exactly one event,
    the [error] line carrying the text of the exception, and ends
    normally with the world untouched; whatever happens, it never ends
    by raising. The first-turn generator has no such guard: if building
    its first agent raises, it yields nothing and the exception leaves
    the generator; and whichever of its builders fail, in a world whose
    store holds pin dictionaries only, none of the events it yields is an
    [error] line. *)
Theorem continuation_error_guard
    (build : agent_kind → option exn)
    (run_async : agent_kind → str → str → str → World → run)
    (msg uid sid : str) (w : World) :
  (∀ e, build estate_agent = Some e →
     _generate_after_second_conversations build run_async msg uid sid w
     = ([Yield (error_event e)], inr (), w)
     ∧ event_type (error_event e) = Some (Py.u "error")
     ∧ field (Py.u "message") (error_event e)
       = Some (JStr (Py.u "会話中にエラーが発生しました: " ++ exn_str e)))
  ∧ (_generate_after_second_conversations build run_async msg uid sid w).1.2
    = inr ()
  ∧ (∀ e, build station_agent = Some e →
     _generate_first_conversation build run_async msg uid sid w
     = ([], inl e, w))
  ∧ (pins_only (data w) →
     Forall not_error
       (events (_generate_first_conversation build run_async msg uid sid w).1.1)).
Proof.
  split_and!.
  - intros e He. split; [|done].
    by apply after_second_not_built.
  - apply after_second_ends_done.
  - intros e He. by apply first_conversation_not_built.
  - intros Hw.
    by destruct (first_conversation_no_error build run_async msg uid sid w Hw)
      as (_ & H & _).
Qed.

Lemma continuation_error_guard_witness :
  _generate_after_second_conversations Scenario.estate_fails Scenario.script
    (Py.u "more") Scenario.sess_1 Scenario.sess_1 Scenario.empty_world
  = ([Yield (error_event Scenario.boom)], inr (), Scenario.empty_world).
Proof.
  exact (proj1 (proj1 (continuation_error_guard Scenario.estate_fails
    Scenario.script (Py.u "more") Scenario.sess_1 Scenario.sess_1
    Scenario.empty_world) Scenario.boom eq_refl)).
Defined.

(** C1, where the code departs from it. In the first-turn pipeline the
    pins of the PIN_SUGGESTIONS step are drained AFTER the message of that
    step is yielded. In the run of [Scenario.script] the station agent
    pins one station and the multiple-pin agent pins two: the pin of the
    LOCATE step comes before the LOCATE message, but the two pins of the
    PIN_SUGGESTIONS step (last pinned first) come after the message
    "pinned" of that step. *)
Theorem pin_suggestions_pins_after_message :
  events (_generate_first_conversation Scenario.all_built Scenario.script
            (Py.u "go") Scenario.sess_1 Scenario.sess_1
            Scenario.empty_world).1.1
  = [ Data (SendPinStore.pin_dict Scenario.shinjuku);
      agent_response (Py.u "located");
      agent_response (Py.u "suggested");
      agent_response (Py.u "pinned");
      Data (SendPinStore.pin_dict Scenario.ogikubo);
      Data (SendPinStore.pin_dict Scenario.nakano);
      agent_response (Py.u "report 1");
      agent_response (Py.u "anything else?") ].
Proof. vm_compute. reflexivity. Qed.

(** ** Further properties of the code *)

(** X1. The LOCATE step of the first-turn pipeline and the GENERAL step
    of the continuation pipeline put every pin drained for the step on the
    stream before the message of the step: with every agent built, the
    events of the first-turn stream start with the pins drained after the
    station agent ran, followed by the station agent's last output, and
    the events of the continuation stream are the pins drained after the
    estate agent ran followed by its last output. *)
Theorem locate_and_general_pins_before_message
    (build : agent_kind → option exn)
    (run_async : agent_kind → str → str → str → World → run)
    (msg uid sid : str) (w : World) :
  (∀ agent, build agent = None) →
  (let s := CustomAgent.stream run_async station_agent msg uid sid w in
   let x := SendPinStore.extract_pins uid (data s.2) in
   ∃ pin_message rest,
     Py.last_item s.1 = Some pin_message
     ∧ events (_generate_first_conversation build run_async msg uid sid w).1.1
       = x.1 ++ agent_response pin_message :: rest)
  ∧ (let s := CustomAgent.stream run_async estate_agent msg uid sid w in
     let x := SendPinStore.extract_pins uid (data s.2) in
     ∃ message,
       Py.last_item s.1 = Some message
       ∧ events (_generate_after_second_conversations build run_async
                   msg uid sid w).1.1
         = x.1 ++ [agent_response message]).
Proof.
  intros built. split.
  - intros s x.
    destruct (first_conversation_trace build run_async built msg uid sid w)
      as (m1 & sug & Hm1 & _ & pm & reports & stopped & r5 & fu & w'
          & _ & _ & _ & _ & _ & _ & ->).
    exists m1. eexists. split; [exact Hm1|]. cbn [fst snd].
    change (events (Invoke ?a ?q ?u ?s0 ?r :: ?t)) with (events t).
    rewrite events_app, events_yields. fold s x. reflexivity.
  - intros s x.
    destruct (after_second_trace build run_async msg uid sid w (built _))
      as (m & Hm & ->).
    exists m. split; [exact Hm|]. cbn [fst snd].
    change (events (Invoke ?a ?q ?u ?s0 ?r :: ?t)) with (events t).
    by rewrite events_app, events_yields.
Qed.

Lemma locate_and_general_pins_before_message_witness :
  events (_generate_after_second_conversations Scenario.all_built
            Scenario.script (Py.u "more") Scenario.sess_1 Scenario.sess_1
            Scenario.empty_world).1.1
  = [Data (SendPinStore.pin_dict Scenario.nakano);
     agent_response (Py.u "general")].
Proof.
  destruct (proj2 (locate_and_general_pins_before_message Scenario.all_built
    Scenario.script (Py.u "more") Scenario.sess_1 Scenario.sess_1
    Scenario.empty_world (λ _, eq_refl))) as (m & Hm & ->).
  vm_compute in Hm. injection Hm as <-. vm_compute. reflexivity.
Defined.

(** X2. The checks of [ChatRequest] that hold as the specification says: the
    session id "abc-123_ok" is accepted and "abc 123!" is refused, whatever
    the alphanumeric table beyond ASCII is; and a message of more than
    1000 characters is refused with the too-long error, whatever the
    session id. *)
Theorem chat_request_examples (unicode_alnum : N → bool) :
  validate unicode_alnum (Py.u "hello") (Py.u "abc-123_ok")
  = inr {| message := Py.u "hello"; session_id := Py.u "abc-123_ok" |}
  ∧ validate unicode_alnum (Py.u "hello") (Py.u "abc 123!")
    = inl [value_error "session_id"
      "session_id must contain only alphanumeric characters, hyphens, and underscores"]
  ∧ ∀ raw_message raw_session_id,
      (1000 < length raw_message)%nat →
      ∃ errors,
        validate unicode_alnum raw_message raw_session_id = inl errors
        ∧ string_too_long "message" ∈ errors.
Proof.
  split_and!; [reflexivity..|]. apply message_too_long_rejected.
Qed.




(** The marker that ends the report loop is the report agents' own
    answer; the text [stream] substitutes for a run without output does
    not hold it, so an agent that says nothing does not end the loop. *)
Lemma no_response_is_not_the_marker :
  Py.contains no_output CustomAgent.no_response = false
  ∧ Py.contains no_output no_output = true.
Proof. split; vm_compute; reflexivity. Qed.

(** The run of [Scenario.script], step by step: the second report agent
    answers with the marker, so slot 3 never runs and one report event is
    on the stream. *)
Lemma scenario_first_conversation_invocations :
  invocations (_generate_first_conversation Scenario.all_built Scenario.script
                 (Py.u "go") Scenario.sess_1 Scenario.sess_1
                 Scenario.empty_world).1.1
  = [ (station_agent, Py.u "go");
      (suggest_agent, Py.u "go");
      (multiple_pin_station_agent, Py.u "suggested");
      (report_agent 1, Py.u "pinned");
      (report_agent 2, Py.u "pinned");
      (followup_agent, Py.u "suggested") ].
Proof. vm_compute. reflexivity. Qed.

(** ** The pin store, call after call *)

Lemma extract_pins_result (u : str) (d : gmap (list N) (list json)) :
  (SendPinStore.extract_pins u d).1 = Data <$> reverse (d !!! u).
Proof.
  unfold SendPinStore.extract_pins. rewrite lookup_total_alt.
  destruct (d !! u) as [q|]; simpl; [|done].
  by rewrite PinStoreFacts.pop_all_app.
Qed.

Lemma extract_pins_empties (u : str) (d : gmap (list N) (list json)) :
  (SendPinStore.extract_pins u d).2 !!! u = [].
Proof.
  unfold SendPinStore.extract_pins. rewrite lookup_total_alt.
  destruct (d !! u) as [q|] eqn:E; simpl.
  - by rewrite lookup_insert_eq.
  - by rewrite E.
Qed.

Lemma extract_pins_other (u v : str) (d : gmap (list N) (list json)) :
  u ≠ v → (SendPinStore.extract_pins u d).2 !! v = d !! v.
Proof.
  intros Hne. unfold SendPinStore.extract_pins.
  destruct (d !! u) as [q|]; simpl; [|done]. by rewrite lookup_insert_ne.
Qed.

(** X5. A drain returns the user's whole queue, last enqueued first, and
    leaves it empty, whatever the store holds (for a user the store does
    not know, the empty list); and the users do not interfere: enqueuing
    or draining for one user changes neither the queue of another user nor
    what a drain of that other user returns. *)
Theorem extract_pins_per_user
    (u v : str) (pin : SendPin) (d : gmap (list N) (list json)) :
  (SendPinStore.extract_pins u d).1 = Data <$> reverse (d !!! u)
  ∧ (SendPinStore.extract_pins u d).2 !!! u = []
  ∧ (u ≠ v →
     (SendPinStore.extract_pins u d).2 !! v = d !! v
     ∧ SendPinStore.insert_pins u pin d !! v = d !! v
     ∧ (SendPinStore.extract_pins v (SendPinStore.insert_pins u pin d)).1
       = (SendPinStore.extract_pins v d).1
     ∧ (SendPinStore.extract_pins v (SendPinStore.extract_pins u d).2).1
       = (SendPinStore.extract_pins v d).1).
Proof.
  split; [apply extract_pins_result|]. split; [apply extract_pins_empties|].
  intros Hne.
  pose proof (extract_pins_other u v d Hne) as Hx.
  pose proof (PinStoreFacts.insert_pins_other u v pin d Hne) as Hi.
  split_and!; [done..| |]; rewrite !extract_pins_result, !lookup_total_alt.
  - by rewrite Hi.
  - by rewrite Hx.
Qed.

(** X6. No pin is lost and none is delivered twice: after any sequence of
    [insert_pins] and [extract_pins] calls, for every user, what the
    user's drains returned together with what is still queued for the user
    is, up to order, what was queued at the start together with what the
    calls enqueued for the user. *)
Theorem no_pin_lost_or_duplicated
    (ops : list store_op) (d : gmap (list N) (list json)) (u : str) :
  drained u (run_store_ops ops d).1
    ++ (Data <$> (run_store_ops ops d).2 !!! u)
  ≡ₚ Data <$> (d !!! u ++ enqueued u ops).
Proof.
  revert d. induction ops as [|[v pin|v] ops IH]; intros d.
  - simpl. by rewrite app_nil_r.
  - simpl. rewrite IH. unfold enqueued. simpl.
    destruct (decide (v = u)) as [->|Hne]; simpl.
    + rewrite PinStoreFacts.insert_pins_lookup_total.
      by rewrite <- app_assoc.
    + rewrite !lookup_total_alt.
      by rewrite (PinStoreFacts.insert_pins_other v u pin d Hne).
  - simpl.
    pose proof (extract_pins_result v d) as Hr.
    pose proof (extract_pins_empties v d) as He.
    pose proof (extract_pins_other v u d) as Ho.
    destruct (SendPinStore.extract_pins v d) as [pins d1]. simpl in *.
    specialize (IH d1).
    destruct (run_store_ops ops d1) as [log d2]. simpl in *.
    unfold enqueued in *. simpl.
    destruct (decide (v = u)) as [->|Hne]; simpl.
    + rewrite <- app_assoc, IH, He, Hr. simpl.
      rewrite !fmap_app. apply Permutation_app_tail.
      by rewrite reverse_Permutation.
    + rewrite IH. rewrite !lookup_total_alt. by rewrite (Ho Hne).
Qed.

(** ** The rate limiter over a running clock *)

Lemma minute_bounds (t : Z) : t `div` 60 * 60 ≤ t < t `div` 60 * 60 + 60.
Proof.
  pose proof (Z.mod_pos_bound t 60 ltac:(lia)).
  pose proof (Z.div_mod t 60 ltac:(lia)). lia.
Qed.

Lemma cleanup_at_minute_same (cur k t : Z) (d : gmap Z Z) :
  at_minute cur k d → t `div` 60 = cur →
  RateLimit.cleanup (t - RateLimit.default_window) d
  = if decide (k = 0) then ∅ else {[ cur * 60 := k ]}.
Proof.
  intros (Hkeys & Hcur & Hk) Ht. unfold RateLimit.default_window.
  pose proof (minute_bounds t) as Hb. rewrite Ht in Hb.
  apply map_eq. intros b. apply option_eq. intros c.
  rewrite RateLimitFacts.cleanup_lookup_Some.
  destruct (decide (k = 0)) as [->|Hk0].
  - rewrite lookup_empty. split; [|done]. intros [Hd Hlt].
    destruct (Hkeys _ _ Hd) as [->|Hold]; [congruence|lia].
  - rewrite lookup_singleton_Some. split.
    + intros [Hd Hlt]. destruct (Hkeys _ _ Hd) as [->|Hold]; [|lia].
      split; [done|congruence].
    + intros [<- <-]. split; [done|lia].
Qed.

Lemma cleanup_at_minute_later (cur k t : Z) (d : gmap Z Z) :
  at_minute cur k d → cur < t `div` 60 →
  RateLimit.cleanup (t - RateLimit.default_window) d = ∅.
Proof.
  intros (Hkeys & _ & _) Ht. unfold RateLimit.default_window.
  pose proof (minute_bounds t) as Hb.
  apply RateLimitFacts.cleanup_all_old. intros b c Hd.
  destruct (Hkeys _ _ Hd); nia.
Qed.

Lemma at_minute_singleton (cur k : Z) :
  0 < k ≤ RateLimit.default_limit → at_minute cur k {[ cur * 60 := k ]}.
Proof.
  intros Hk. split; [|split]; [|by rewrite lookup_singleton_eq, decide_False by lia|lia].
  intros b c [<- _]%lookup_singleton_Some. by left.
Qed.

(** One check of a client whose dict is [at_minute cur k], at a clock
    reading of minute [cur] or later. *)
Lemma check_at_minute (client_ip : str) (t cur k : Z)
    (rc : gmap (list N) (gmap Z Z)) :
  at_minute cur k (rc !!! client_ip) → cur ≤ t `div` 60 →
  let r := RateLimit.check client_ip t rc in
  (t `div` 60 = cur ∧ k < RateLimit.default_limit ∧ r.1 = true
     ∧ at_minute cur (k + 1) (r.2 !!! client_ip))
  ∨ (t `div` 60 = cur ∧ k = RateLimit.default_limit ∧ r.1 = false
     ∧ at_minute cur k (r.2 !!! client_ip))
  ∨ (cur < t `div` 60 ∧ r.1 = true
     ∧ at_minute (t `div` 60) 1 (r.2 !!! client_ip)).
Proof.
  intros Hat Hcur r. unfold r, RateLimit.check.
  rewrite RateLimitFacts.check_rate_limit_unfold. simpl.
  pose proof Hat as (_ & _ & Hk). unfold RateLimit.default_limit in *.
  destruct (decide (t `div` 60 = cur)) as [Ht|Hne].
  - rewrite (cleanup_at_minute_same cur k t _ Hat Ht).
    destruct (decide (k = 0)) as [->|Hk0].
    + rewrite RateLimitFacts.total_empty.
      rewrite bool_decide_eq_false_2 by lia. simpl.
      left. split_and!; [done|lia|done|].
      rewrite lookup_total_insert_eq, lookup_empty, insert_empty, Ht. simpl.
      apply (at_minute_singleton cur 1). unfold RateLimit.default_limit. lia.
    + rewrite RateLimitFacts.total_singleton.
      destruct (decide (k = 10)) as [->|Hk10].
      * rewrite bool_decide_eq_true_2 by lia. simpl.
        right. left. split_and!; [done..|].
        rewrite lookup_total_insert_eq.
        apply at_minute_singleton. unfold RateLimit.default_limit. lia.
      * rewrite bool_decide_eq_false_2 by lia. simpl.
        left. split_and!; [done|lia|done|].
        rewrite lookup_total_insert_eq, Ht, lookup_singleton_eq.
        rewrite insert_singleton_eq. simpl.
        apply (at_minute_singleton cur (k + 1)).
        unfold RateLimit.default_limit. lia.
  - rewrite (cleanup_at_minute_later cur k t _ Hat) by lia.
    rewrite RateLimitFacts.total_empty.
    rewrite bool_decide_eq_false_2 by lia. simpl.
    right. right. split_and!; [lia|done|].
    rewrite lookup_total_insert_eq, lookup_empty, insert_empty. simpl.
    apply (at_minute_singleton (t `div` 60) 1).
    unfold RateLimit.default_limit. lia.
Qed.

Lemma accepted_in_minute_cons (m t : Z) (ts : list Z) (ok : bool) (oks : list bool) :
  accepted_in_minute m (t :: ts) (ok :: oks)
  = ((if decide (ok = true ∧ (t `div` 60 = m)%Z) then 1 else 0)
     + accepted_in_minute m ts oks)%nat.
Proof.
  unfold accepted_in_minute. simpl zip. rewrite filter_cons. simpl.
  by destruct (decide (ok = true ∧ t `div` 60 = m)).
Qed.

Lemma accepted_in_minute_none (m : Z) (ts : list Z) :
  ∀ oks, Forall (λ t, t `div` 60 ≠ m) ts → accepted_in_minute m ts oks = 0%nat.
Proof.
  induction ts as [|t ts IH]; intros oks Hall.
  - unfold accepted_in_minute. by destruct oks.
  - apply Forall_cons in Hall as [Ht Hall]. destruct oks as [|ok oks]; [done|].
    rewrite accepted_in_minute_cons, IH by done.
    by rewrite decide_False by (intros [_ ?]; done).
Qed.

Lemma accepted_in_minute_bounded (client_ip : str) (ts : list Z) :
  ∀ (rc : gmap (list N) (gmap Z Z)) (cur k m : Z),
    at_minute cur k (rc !!! client_ip) →
    Forall (λ t, cur ≤ t `div` 60) ts →
    StronglySorted Z.le ts →
    (accepted_in_minute m ts (RateLimit.replay client_ip ts rc).1
     + (if decide (m = cur) then Z.to_nat k else 0) ≤ 10)%nat.
Proof.
  induction ts as [|t ts IH]; intros rc cur k m Hat Hall Hsorted.
  - destruct Hat as (_ & _ & Hk). unfold RateLimit.default_limit in Hk.
    unfold accepted_in_minute. simpl. destruct (decide (m = cur)); lia.
  - apply Forall_cons in Hall as [Ht Hall].
    apply StronglySorted_inv in Hsorted as [Hsorted Hle].
    pose proof (check_at_minute client_ip t cur k rc Hat Ht) as Hcheck.
    simpl in Hcheck. simpl RateLimit.replay.
    destruct (RateLimit.check client_ip t rc) as [ok rc1]. simpl in Hcheck.
    destruct (RateLimit.replay client_ip ts rc1) as [oks rc2] eqn:Hreplay.
    simpl. rewrite accepted_in_minute_cons.
    destruct Hcheck as [(Hm & Hk & -> & Hat1)
                       |[(Hm & Hk & -> & Hat1)|(Hm & -> & Hat1)]].
    + specialize (IH rc1 cur (k + 1) m Hat1 Hall Hsorted).
      rewrite Hreplay in IH. simpl in IH.
      destruct Hat as (_ & _ & Hk0).
      destruct (decide (m = cur)) as [->|Hne].
      * rewrite decide_True by done. lia.
      * rewrite decide_False by (intros [_ ?]; congruence). lia.
    + specialize (IH rc1 cur k m Hat1 Hall Hsorted).
      rewrite Hreplay in IH. simpl in IH.
      by rewrite decide_False by (intros [? _]; done).
    + assert (Hall' : Forall (λ t', t `div` 60 ≤ t' `div` 60) ts).
      { eapply Forall_impl; [exact Hle|]. intros t' Htt'. simpl in Htt'.
        by apply Z.div_le_mono. }
      specialize (IH rc1 (t `div` 60) 1 m Hat1 Hall' Hsorted).
      rewrite Hreplay in IH. simpl in IH.
      destruct (decide (m = t `div` 60)) as [->|Hne].
      * rewrite decide_True by done.
        rewrite decide_False by lia. lia.
      * rewrite (decide_False (P := true = true ∧ t `div` 60 = m))
          by (intros [_ ?]; congruence).
        destruct (decide (m = cur)) as [->|Hne']; [|lia].
        rewrite (accepted_in_minute_none cur ts oks); [|].
        -- destruct Hat as (_ & _ & Hk0).
           unfold RateLimit.default_limit in Hk0. lia.
        -- eapply Forall_impl; [exact Hall'|]. simpl. intros; lia.
Qed.

(** X7. While the clock does not go back, a client gets at most ten
    requests accepted in any one clock minute: for a client with no entry
    on file and requests at non-decreasing clock readings, the number of
    accepted requests whose reading falls in minute [m] is at most 10,
    for every [m]. *)
Theorem at_most_ten_accepted_per_minute
    (client_ip : str) (rc : gmap (list N) (gmap Z Z)) (times : list Z) (m : Z) :
  rc !!! client_ip = ∅ →
  StronglySorted Z.le times →
  (accepted_in_minute m times (RateLimit.replay client_ip times rc).1 ≤ 10)%nat.
Proof.
  intros Hempty Hsorted.
  destruct times as [|t ts].
  - unfold accepted_in_minute. simpl. lia.
  - assert (Hat : at_minute (t `div` 60) 0 (rc !!! client_ip)).
    { rewrite Hempty. split; [|split]; [by intros b c; rewrite lookup_empty
        |by rewrite lookup_empty|unfold RateLimit.default_limit; lia]. }
    assert (Hall : Forall (λ t', t `div` 60 ≤ t' `div` 60) (t :: ts)).
    { constructor; [done|]. apply StronglySorted_inv in Hsorted as [_ Hle].
      eapply Forall_impl; [exact Hle|]. intros t' Htt'. simpl in Htt'.
      by apply Z.div_le_mono. }
    pose proof (accepted_in_minute_bounded client_ip (t :: ts) rc
      (t `div` 60) 0 m Hat Hall Hsorted) as H. lia.
Qed.

Lemma at_most_ten_accepted_per_minute_witness :
  (accepted_in_minute 0%Z (replicate 12 30%Z ++ [61%Z])
     (RateLimit.replay Scenario.client (replicate 12 30%Z ++ [61%Z]) ∅).1
   ≤ 10)%nat.
Proof.
  refine (at_most_ten_accepted_per_minute Scenario.client ∅
            (replicate 12 30%Z ++ [61%Z]) 0%Z _ _).
  - reflexivity.
  - simpl. repeat (constructor; [|repeat constructor; lia]). constructor.
Defined.

(** X8. The clients do not interfere: a check of one client leaves the
    entry of every other client as it was, does not change the answer a
    check of another client gets, and two checks of different clients
    leave the same counters in either order. *)
Theorem rate_limit_clients_independent
    (a b : str) (limit window ta tb : Z) (rc : gmap (list N) (gmap Z Z)) :
  a ≠ b →
  let ra := RateLimit.check_rate_limit a limit window ta rc in
  let rb := RateLimit.check_rate_limit b limit window tb rc in
  ra.2 !! b = rc !! b
  ∧ (RateLimit.check_rate_limit b limit window tb ra.2).1 = rb.1
  ∧ (RateLimit.check_rate_limit b limit window tb ra.2).2
    = (RateLimit.check_rate_limit a limit window ta rb.2).2.
Proof.
  intros Hne ra rb. subst ra rb.
  assert (Hother : ∀ x y t (r : gmap (list N) (gmap Z Z)), x ≠ y →
    (RateLimit.check_rate_limit x limit window t r).2 !! y = r !! y).
  { intros x y t r Hxy. rewrite RateLimitFacts.check_rate_limit_unfold. simpl.
    case_bool_decide; simpl; by rewrite lookup_insert_ne. }
  assert (Hab : (RateLimit.check_rate_limit a limit window ta rc).2 !!! b
                = rc !!! b).
  { by rewrite !lookup_total_alt, (Hother a b ta rc Hne). }
  assert (Hba : (RateLimit.check_rate_limit b limit window tb rc).2 !!! a
                = rc !!! a).
  { by rewrite !lookup_total_alt, (Hother b a tb rc) by done. }
  split; [by apply Hother|].
  rewrite (RateLimitFacts.check_rate_limit_unfold b limit window tb
             (RateLimit.check_rate_limit a limit window ta rc).2).
  rewrite (RateLimitFacts.check_rate_limit_unfold a limit window ta
             (RateLimit.check_rate_limit b limit window tb rc).2).
  simpl. rewrite Hab, Hba.
  rewrite !RateLimitFacts.check_rate_limit_unfold. simpl.
  repeat case_bool_decide; simpl; (split; [done|]);
    by rewrite insert_insert_ne by done.
Qed.

Lemma rate_limit_clients_independent_witness :
  (RateLimit.check_rate_limit Scenario.sess_1 10 60 5
     (RateLimit.check_rate_limit Scenario.client 10 60 3 ∅).2).1
  = (RateLimit.check_rate_limit Scenario.sess_1 10 60 5 ∅).1.
Proof.
  refine (proj1 (proj2 (rate_limit_clients_independent Scenario.client
    Scenario.sess_1 10 60 3 5 ∅ _))).
  vm_compute. discriminate.
Defined.

(** ** What an accepted request looks like *)

Section AcceptedRequests.
Variable unicode_alnum : N → bool.

Lemma separators_not_alnum :
  isalnum_char unicode_alnum 45 = false ∧ isalnum_char unicode_alnum 95 = false.
Proof. by split. Qed.

Lemma remove_separators_alnum (v : str) :
  forallb (isalnum_char unicode_alnum)
    (Py.remove_char 95 (Py.remove_char 45 v)) = true
  ↔ Forall (λ c, isalnum_char unicode_alnum c = true ∨ c = 45%N ∨ c = 95%N) v.
Proof.
  unfold Py.remove_char. induction v as [|c v IH]; [by split|].
  rewrite Forall_cons, <- IH.
  destruct (decide (c = 45%N)) as [->|H45].
  { rewrite (filter_cons_False _ 45%N) by (simpl; intros H; by apply H).
    split; [by auto|by intros [_ ?]]. }
  rewrite (filter_cons_True _ c) by done.
  destruct (decide (c = 95%N)) as [->|H95].
  { rewrite (filter_cons_False _ 95%N) by (simpl; intros H; by apply H).
    split; [by auto|by intros [_ ?]]. }
  rewrite (filter_cons_True _ c) by done. simpl.
  rewrite andb_true_iff. split.
  - intros [Hc Hv]. by auto.
  - intros [[Hc|[?|?]] Hv]; done.
Qed.

Lemma remove_separators_nonempty (v : str) :
  Py.remove_char 95 (Py.remove_char 45 v) ≠ []
  ↔ Exists (λ c, c ≠ 45%N ∧ c ≠ 95%N) v.
Proof.
  unfold Py.remove_char. induction v as [|c v IH].
  - split; [done|]. by intros ?%Exists_nil.
  - rewrite Exists_cons, <- IH.
    destruct (decide (c = 45%N)) as [->|H45].
    { rewrite (filter_cons_False _ 45%N) by (simpl; intros H; by apply H).
      split; [by auto|]. by intros [[? _]|?]. }
    rewrite (filter_cons_True _ c) by done.
    destruct (decide (c = 95%N)) as [->|H95].
    { rewrite (filter_cons_False _ 95%N) by (simpl; intros H; by apply H).
      split; [by auto|]. by intros [[_ ?]|?]. }
    rewrite (filter_cons_True _ c) by done.
    split; [by auto|done].
Qed.

Lemma lstrip_suffix (s : str) : Py.lstrip s `suffix_of` s.
Proof.
  induction s as [|c s IH]; [done|]. simpl.
  destruct (Py.isspace c); [by apply suffix_cons_r|done].
Qed.

Lemma lstrip_head (s : str) (c : N) :
  head (Py.lstrip s) = Some c → Py.isspace c = false.
Proof.
  induction s as [|c' s IH]; [done|]. simpl.
  destruct (Py.isspace c') eqn:E; [done|]. by intros [= <-].
Qed.

Lemma lstrip_fixed (s : str) :
  (∀ c, head s = Some c → Py.isspace c = false) → Py.lstrip s = s.
Proof.
  destruct s as [|c s]; [done|]. simpl. intros H. by rewrite (H c eq_refl).
Qed.

Lemma last_suffix (s1 s2 : str) :
  s1 `suffix_of` s2 → s1 ≠ [] → last s1 = last s2.
Proof.
  intros [k ->] Hne. destruct s1 as [|c s1]; [done|].
  by rewrite last_app_cons.
Qed.

Lemma head_reverse (s : str) : head (reverse s) = last s.
Proof.
  induction s as [|c s IH] using rev_ind; [done|].
  by rewrite reverse_snoc, last_snoc.
Qed.

Lemma last_reverse (s : str) : last (reverse s) = head s.
Proof. by rewrite <- head_reverse, reverse_involutive. Qed.

(** [strip] leaves no white space at either end, does not lengthen, and
    leaves a stripped string alone. *)
Lemma strip_ends (s : str) :
  (∀ c, head (Py.strip s) = Some c → Py.isspace c = false)
  ∧ (∀ c, last (Py.strip s) = Some c → Py.isspace c = false)
  ∧ (length (Py.strip s) ≤ length s)%nat.
Proof.
  unfold Py.strip.
  set (a := Py.lstrip s). set (b := Py.lstrip (reverse a)).
  assert (Hb : b `suffix_of` reverse a) by apply lstrip_suffix.
  split_and!.
  - intros c. rewrite head_reverse. intros Hc.
    assert (Hne : b ≠ []) by (by intros Hnil; rewrite Hnil in Hc).
    rewrite (last_suffix _ _ Hb Hne), last_reverse in Hc.
    by apply (lstrip_head s).
  - intros c. rewrite last_reverse. apply lstrip_head.
  - rewrite length_reverse.
    apply suffix_length in Hb. rewrite length_reverse in Hb.
    pose proof (suffix_length _ _ (lstrip_suffix s)). unfold a in *. lia.
Qed.

Lemma strip_fixed (s : str) :
  (∀ c, head s = Some c → Py.isspace c = false) →
  (∀ c, last s = Some c → Py.isspace c = false) →
  Py.strip s = s.
Proof.
  intros Hh Hl. unfold Py.strip. rewrite (lstrip_fixed s Hh).
  rewrite lstrip_fixed; [apply reverse_involutive|].
  intros c. rewrite head_reverse. apply Hl.
Qed.

End AcceptedRequests.

(** X9. Which session ids are accepted: a session id passes its field
    validation exactly when it has 1 to 100 characters, each of them
    alphanumeric, a hyphen or an underscore, and at least one of them is
    alphanumeric; it is then kept as sent (not trimmed). *)
Theorem session_id_accepted_iff (unicode_alnum : N → bool) (v v' : str) :
  validate_field "session_id" 1 100 (validate_session_id unicode_alnum) v
  = inr v'
  ↔ v' = v
    ∧ (1 ≤ length v ≤ 100)%nat
    ∧ Forall (λ c, isalnum_char unicode_alnum c = true ∨ c = 45%N ∨ c = 95%N) v
    ∧ Exists (λ c, isalnum_char unicode_alnum c = true) v.
Proof.
  unfold validate_field, check_length, validate_session_id, isalnum.
  pose proof (remove_separators_alnum unicode_alnum v) as Hall.
  pose proof (remove_separators_nonempty v) as Hne.
  destruct (separators_not_alnum unicode_alnum) as [H45 H95].
  destruct (Nat.ltb_spec (length v) 1) as [Hlo|Hlo];
    [split; [done|intros (_ & ? & _); lia]|].
  destruct (Nat.ltb_spec 100 (length v)) as [Hhi|Hhi];
    [split; [done|intros (_ & ? & _); lia]|].
  destruct (Py.remove_char 95 (Py.remove_char 45 v)) as [|c l] eqn:E; simpl.
  - split; [done|]. intros (_ & _ & Hfa & Hex). exfalso.
    assert (Hex' : Exists (λ c, c ≠ 45%N ∧ c ≠ 95%N) v).
    { eapply Exists_impl; [exact Hex|]. intros c Hc. simpl in Hc.
      split; intros ->; congruence. }
    by apply Hne in Hex'.
  - change (isalnum_char unicode_alnum c && forallb (isalnum_char unicode_alnum) l)
      with (forallb (isalnum_char unicode_alnum) (c :: l)).
    destruct (forallb (isalnum_char unicode_alnum) (c :: l)) eqn:Hf; simpl.
    + split.
      * intros [= <-]. split_and!; [done|lia|lia|by apply Hall|].
        assert (Hex : Exists (λ c, c ≠ 45%N ∧ c ≠ 95%N) v) by (by apply Hne).
        assert (Hfa : Forall (λ c, isalnum_char unicode_alnum c = true
                                   ∨ c = 45%N ∨ c = 95%N) v) by (by apply Hall).
        rewrite Forall_forall in Hfa.
        apply Exists_exists in Hex as (x & Hx & H1 & H2).
        apply Exists_exists. exists x. split; [done|].
        destruct (Hfa x Hx) as [?|[?|?]]; done.
      * by intros (-> & _).
    + split; [done|]. intros (_ & _ & Hfa & _).
      apply Hall in Hfa. discriminate Hfa.
Qed.

(** X10. Which messages are accepted, and what the request then holds: a
    message passes exactly when it has 1 to 1000 characters as sent; the
    request holds it trimmed, so with at most 1000 characters and no white
    space at either end; and an accepted message that is not empty is
    accepted again unchanged, so validation is idempotent on it. *)
Theorem message_accepted_iff (raw m : str) :
  (validate_field "message" 1 1000 sanitize_message raw = inr m
   ↔ (1 ≤ length raw ≤ 1000)%nat ∧ m = Py.strip raw)
  ∧ (validate_field "message" 1 1000 sanitize_message raw = inr m →
     (length m ≤ 1000)%nat
     ∧ (∀ c, head m = Some c → Py.isspace c = false)
     ∧ (∀ c, last m = Some c → Py.isspace c = false)
     ∧ (m ≠ [] →
        validate_field "message" 1 1000 sanitize_message m = inr m)).
Proof.
  assert (Hiff : ∀ r m',
    validate_field "message" 1 1000 sanitize_message r = inr m'
    ↔ (1 ≤ length r ≤ 1000)%nat ∧ m' = Py.strip r).
  { intros r m'. unfold validate_field, check_length, sanitize_message.
    destruct (Nat.ltb_spec (length r) 1) as [Hlo|Hlo];
      [split; [done|intros [? _]; lia]|].
    destruct (Nat.ltb_spec 1000 (length r)) as [Hhi|Hhi];
      [split; [done|intros [? _]; lia]|].
    split; [intros [= <-]; split; [lia|done]|by intros [_ ->]]. }
  split; [apply Hiff|].
  intros [Hlen ->]%Hiff.
  destruct (strip_ends raw) as (Hh & Hl & Hle).
  split_and!; [lia|done|done|].
  intros Hne. apply Hiff. split.
  - destruct (Py.strip raw); [done|]. simpl in *. lia.
  - symmetry. by apply strip_fixed.
Qed.

Lemma message_accepted_iff_witness :
  validate_field "message" 1 1000 sanitize_message (Py.u "go")
  = inr (Py.u "go").
Proof.
  refine (proj2 (proj2 (proj2 (proj2 (message_accepted_iff (Py.u "  go ")
    (Py.u "go")) _))) _).
  - reflexivity.
  - discriminate.
Defined.

(** ** What [stream] does to the shared state *)

Section StreamFacts.
Variable run_async : agent_kind → str → str → str → World → run.

Lemma consume_queue (u : str) (ss : list run_step) :
  ∀ acc (d : gmap (list N) (list json)),
    (CustomAgent.consume ss acc d).2 !!! u = d !!! u ++ tool_pins u ss.
Proof.
  induction ss as [|[e|v pin] ss IH]; intros acc d; simpl.
  - by rewrite app_nil_r.
  - destruct (CustomAgent.event_response e); apply IH.
  - rewrite IH. unfold tool_pins. simpl.
    destruct (decide (v = u)) as [->|Hne]; simpl.
    + rewrite PinStoreFacts.insert_pins_lookup_total. by rewrite <- app_assoc.
    + rewrite !lookup_total_alt.
      by rewrite (PinStoreFacts.insert_pins_other v u pin d Hne).
Qed.

Lemma session_data (u s : str) (w : World) :
  data (CustomAgent._session u s w).2 = data w.
Proof.
  unfold CustomAgent._session.
  destruct (check_conversation_if_exist _ _ _ _); [done|].
  by destruct (create_session _ _ _ _).
Qed.

(** The tools' pins are in the store when [stream] returns, in call
    order behind what was queued, also when the run raised. *)
Lemma stream_queue (agent : agent_kind) (q u s v : str) (w : World) :
  data (CustomAgent.stream run_async agent q u s w).2 !!! v
  = data w !!! v
    ++ tool_pins v (steps (CustomAgent.run_of run_async agent q u s w)).
Proof.
  unfold CustomAgent.stream, CustomAgent.run_of.
  pose proof (session_data u s w) as Hd.
  destruct (CustomAgent._session u s w) as [ss w1]. simpl in Hd.
  pose proof (consume_queue v (steps (run_async agent q u (id ss) w1)) []
                (data w1)) as Hc.
  destruct (CustomAgent.consume _ _ _) as [result d]. simpl in Hc.
  rewrite Hd in Hc.
  destruct (raised _); [done|]. by destruct result.
Qed.

Lemma stream_sessions (agent : agent_kind) (q u s : str) (w : World) :
  sessions (CustomAgent.stream run_async agent q u s w).2
  = sessions (CustomAgent._session u s w).2.
Proof.
  unfold CustomAgent.stream.
  destruct (CustomAgent._session u s w) as [ss w1].
  destruct (CustomAgent.consume _ _ _) as [result d].
  destruct (raised _); [done|]. by destruct result.
Qed.


(** The check, read through [default]. *)
Lemma check_conversation_alt
    (tbl : gmap (list N) (gmap (list N) (gmap (list N) Session)))
    (name u s : str) :
  check_conversation_if_exist tbl name u s
  = bool_decide (is_Some
      (default ∅ (default ∅ (tbl !! name) !! u) !! s)).
Proof.
  unfold check_conversation_if_exist.
  destruct (tbl !! name) as [bu|]; simpl.
  - destruct (bu !! u) as [bs|]; simpl; [done|].
    rewrite lookup_empty. symmetry. apply bool_decide_eq_false_2.
    by intros [? ?].
  - rewrite !lookup_empty. simpl. rewrite lookup_empty.
    symmetry. apply bool_decide_eq_false_2. by intros [? ?].
Qed.

(** What [create_session] changes in the answers of the check: the one
    conversation it files. *)
Lemma check_after_create
    (tbl : gmap (list N) (gmap (list N) (gmap (list N) Session)))
    (app u s name u' s' : str) :
  check_conversation_if_exist (create_session tbl app u s).2 name u' s'
  = if decide (name = app ∧ u' = u ∧ s' = s) then true
    else check_conversation_if_exist tbl name u' s'.
Proof.
  rewrite !check_conversation_alt. unfold create_session. simpl.
  destruct (decide (name = app)) as [->|Hn].
  - rewrite lookup_insert_eq. simpl.
    destruct (decide (u' = u)) as [->|Hu].
    + rewrite lookup_insert_eq. simpl.
      destruct (decide (s' = s)) as [->|Hs].
      * rewrite lookup_insert_eq, decide_True by done.
        by apply bool_decide_eq_true_2.
      * rewrite lookup_insert_ne by done.
        by rewrite decide_False by (by intros (_ & _ & ?)).
    + rewrite lookup_insert_ne by done.
      by rewrite decide_False by (by intros (_ & ? & _)).
  - rewrite lookup_insert_ne by done.
    by rewrite decide_False by (by intros (? & _ & _)).
Qed.

(** What [stream] changes in the answers of the check. *)
Lemma check_after_stream (agent : agent_kind) (q u s name u' s' : str)
    (w : World) :
  check_conversation_if_exist
    (sessions (CustomAgent.stream run_async agent q u s w).2) name u' s'
  = if decide (name = CustomAgent.MODEL ∧ u' = u ∧ s' = s) then true
    else check_conversation_if_exist (sessions w) name u' s'.
Proof.
  rewrite stream_sessions. unfold CustomAgent._session.
  destruct (check_conversation_if_exist (sessions w) CustomAgent.MODEL u s)
    eqn:E.
  - simpl. destruct (decide _) as [(-> & -> & ->)|]; done.
  - pose proof (check_after_create (sessions w) CustomAgent.MODEL u s
                  name u' s') as H.
    destruct (create_session _ _ _ _) as [ss tbl]. exact H.
Qed.

Lemma responses_nonempty (ss : list run_step) :
  Forall (λ r, r ≠ []) (CustomAgent.responses ss).
Proof.
  unfold CustomAgent.responses. induction ss as [|[e|v pin] ss IH]; simpl;
    [constructor| |exact IH].
  destruct (CustomAgent.event_response e) as [r|] eqn:E; [|exact IH].
  constructor; [|exact IH].
  unfold CustomAgent.event_response in E.
  destruct (content e) as [c|]; [|done].
  destruct (parts c); [done|].
  destruct (CustomAgent.join_lines _); [done|]. by injection E as <-.
Qed.

Lemma stream_outputs_nonempty (agent : agent_kind) (q u s : str) (w : World) :
  Forall (λ r, r ≠ []) (CustomAgent.stream run_async agent q u s w).1.
Proof.
  rewrite CustomAgentFacts.stream_result.
  destruct (raised _) as [e|].
  - by repeat constructor.
  - pose proof (responses_nonempty
      (steps (CustomAgent.run_of run_async agent q u s w))) as H.
    destruct (CustomAgent.responses _); [by repeat constructor|done].
Qed.

End StreamFacts.

(** X11. Whatever the run does, every text [stream] returns is a
    non-empty string: the outputs of the run are kept only when not empty,
    and the failure message and the substitute for a run without output
    are not empty; in particular the last one, which the pipelines put on
    the stream, is never the empty string. *)
Theorem stream_texts_not_empty
    (run_async : agent_kind → str → str → str → World → run)
    (agent : agent_kind) (query user_id session_id : str) (w : World) :
  Forall (λ r, r ≠ [])
    (CustomAgent.stream run_async agent query user_id session_id w).1
  ∧ ∃ m, Py.last_item
           (CustomAgent.stream run_async agent query user_id session_id w).1
         = Some m
         ∧ m ≠ [].
Proof.
  pose proof (stream_outputs_nonempty run_async agent query user_id
                session_id w) as Hall.
  split; [exact Hall|].
  destruct (CustomAgentFacts.stream_nonempty run_async agent query user_id
              session_id w) as (front & m & Hr).
  rewrite Hr in *. exists m. unfold Py.last_item. rewrite last_snoc.
  split; [done|]. apply Forall_app in Hall as [_ Hm]. by inversion Hm.
Qed.


(** ** What the generators keep, and what they put on the stream *)

Section KeptByGenerators.
Variable build : agent_kind → option exn.
Variable run_async : agent_kind → str → str → str → World → run.

Lemma preserves_ret {A} (I : World → Prop) (a : A) : preserves I (mret a).
Proof. by intros w Hw. Qed.

Lemma preserves_bind {A B} (I : World → Prop) (m : G A) (f : A → G B) :
  preserves I m → (∀ a, preserves I (f a)) → preserves I (m ≫= f).
Proof.
  intros Hm Hf w Hw. rewrite bind_run. specialize (Hm w Hw).
  destruct (m w) as [[t1 [e|a]] w1]; simpl in *; [done|].
  specialize (Hf a w1 Hm). by destruct (f a w1) as [[t2 r] w2].
Qed.

Lemma preserves_yield (I : World → Prop) (e : sse) : preserves I (yield e).
Proof. by intros w Hw. Qed.

Lemma preserves_yield_each (I : World → Prop) (es : list sse) :
  preserves I (yield_each es).
Proof.
  induction es as [|e es IH]; simpl; [apply preserves_ret|].
  apply preserves_bind; [apply preserves_yield|by intros _].
Qed.

Lemma preserves_last_of (I : World → Prop) (r : list str) :
  preserves I (last_of r).
Proof. intros w Hw. unfold last_of. by destruct (Py.last_item r). Qed.

Lemma preserves_try_except (I : World → Prop) (body : G ())
    (handler : exn → G ()) :
  preserves I body → (∀ e, preserves I (handler e)) →
  preserves I (try_except body handler).
Proof.
  intros Hb Hh w Hw. unfold try_except. specialize (Hb w Hw).
  destruct (body w) as [[t1 [e|a]] w1]; simpl in *; [|done].
  specialize (Hh e w1 Hb). by destruct (handler e w1) as [[t2 r] w2].
Qed.

Lemma on_file_extract_pins (u s v : str) :
  preserves (on_file u s) (extract_pins v).
Proof.
  intros w Hw. unfold extract_pins.
  by destruct (SendPinStore.extract_pins v (data w)).
Qed.

Lemma on_file_invoke (u s : str) (agent : agent_kind) (q u' s' : str) :
  preserves (on_file u s) (invoke build run_async agent q u' s').
Proof.
  intros w Hw. unfold invoke. destruct (build agent); [done|].
  pose proof (check_after_stream run_async agent q u' s'
                CustomAgent.MODEL u s w) as H.
  destruct (CustomAgent.stream run_async agent q u' s' w) as [r w1].
  unfold on_file in *. simpl in *. rewrite H, Hw. by destruct (decide _).
Qed.

Lemma on_file_report_loop (u s : str) (range : list nat) (pm u' s' : str) :
  preserves (on_file u s) (report_loop build run_async range pm u' s').
Proof.
  induction range as [|i range IH]; simpl; [apply preserves_ret|].
  apply preserves_bind; [apply on_file_invoke|]. intros r.
  apply preserves_bind; [apply preserves_last_of|]. intros m.
  destruct (Py.contains no_output m); [apply preserves_ret|].
  apply preserves_bind; [apply preserves_yield|by intros _].
Qed.

Ltac keep_on_file :=
  repeat first
    [ apply preserves_yield
    | apply preserves_bind;
      [ first [ apply on_file_invoke | apply preserves_last_of
              | apply on_file_extract_pins | apply preserves_yield
              | apply preserves_yield_each | apply on_file_report_loop ]
      | intros ? ] ].

Lemma on_file_after_second (u s : str) (msg u' s' : str) :
  preserves (on_file u s)
    (_generate_after_second_conversations build run_async msg u' s').
Proof.
  unfold _generate_after_second_conversations.
  apply preserves_try_except; [|intros e; apply preserves_yield].
  keep_on_file.
Qed.

Lemma bind_reaches {A B} (I : World → Prop) (m : G A) (f : A → G B)
    (w : World) :
  I (m w).2 → (∀ a, preserves I (f a)) → I ((m ≫= f) w).2.
Proof.
  intros Hm Hf. rewrite bind_run.
  destruct (m w) as [[t1 [e|a]] w1]; simpl in *; [done|].
  specialize (Hf a w1 Hm). by destruct (f a w1) as [[t2 r] w2].
Qed.

(** Once the station agent is built, the first-turn generator leaves the
    conversation on file, whatever fails later. *)
Lemma first_conversation_registers (msg u s : str) (w : World) :
  build station_agent = None →
  on_file u s (_generate_first_conversation build run_async msg u s w).2.
Proof.
  intros Hb. unfold _generate_first_conversation.
  apply bind_reaches.
  - unfold invoke. rewrite Hb.
    pose proof (stream_registers run_async station_agent msg u s w) as Hreg.
    by destruct (CustomAgent.stream run_async station_agent msg u s w).
  - intros r. keep_on_file.
Qed.

Section EmitsOnly.
Variable P : sse → Prop.
Hypothesis P_pin : ∀ j, is_pin j → P (Data j).
Hypothesis P_text : ∀ m, m ≠ [] → P (agent_response m).

Lemma emits_ret {A} (a : A) (Q : A → Prop) : Q a → emits_only P (mret a) Q.
Proof. intros Ha w Hw. split_and!; [done|constructor|]. by intros ? [= <-]. Qed.

Lemma emits_bind {A B} (m : G A) (f : A → G B) (Q : A → Prop) (R : B → Prop) :
  emits_only P m Q → (∀ a, Q a → emits_only P (f a) R) →
  emits_only P (m ≫= f) R.
Proof.
  intros Hm Hf w Hw. rewrite bind_run.
  destruct (Hm w Hw) as (H1 & H2 & H3).
  destruct (m w) as [[t1 [e|a]] w1]; simpl in *.
  - split_and!; [done..|]. by intros ? [=].
  - destruct (Hf a (H3 a eq_refl) w1 H1) as (H4 & H5 & H6).
    destruct (f a w1) as [[t2 r] w2]; simpl in *.
    split_and!; [done| |done].
    rewrite events_app. by apply Forall_app.
Qed.

Lemma emits_yield (e : sse) : P e → emits_only P (yield e) (λ _, True).
Proof. intros He w Hw. split_and!; [done|by repeat constructor|done]. Qed.

Lemma emits_yield_each (es : list sse) :
  Forall P es → emits_only P (yield_each es) (λ _, True).
Proof.
  induction 1 as [|e es He _ IH]; simpl.
  - by apply emits_ret.
  - eapply emits_bind; [by apply emits_yield|]. intros _ _. exact IH.
Qed.

Lemma emits_extract_pins (uid : str) :
  emits_only P (extract_pins uid) (Forall P).
Proof.
  intros w Hw. unfold extract_pins, SendPinStore.extract_pins.
  destruct (data w !! uid) as [q|] eqn:E; simpl.
  - split_and!; [|constructor|].
    + intros u q'. destruct (decide (uid = u)) as [->|Hne].
      * rewrite lookup_insert_eq. by intros [= <-].
      * rewrite lookup_insert_ne by done. apply Hw.
    + intros a [= <-]. rewrite PinStoreFacts.pop_all_app. simpl.
      apply Forall_fmap, Forall_reverse.
      eapply Forall_impl; [exact (Hw _ _ E)|].
      intros j Hj. by apply P_pin.
  - split_and!; [done|constructor|]. by intros a [= <-].
Qed.

Lemma emits_invoke (agent : agent_kind) (q u s : str) :
  emits_only P (invoke build run_async agent q u s) (Forall (λ r, r ≠ [])).
Proof.
  intros w Hw. unfold invoke. destruct (build agent); [by split_and!|].
  pose proof (stream_pins_only run_async agent q u s w Hw) as Hs.
  pose proof (stream_outputs_nonempty run_async agent q u s w) as Hn.
  destruct (CustomAgent.stream run_async agent q u s w) as [r w1].
  split_and!; [done|constructor|]. by intros a [= <-].
Qed.

Lemma emits_last_of (r : list str) :
  Forall (λ x, x ≠ []) r → emits_only P (last_of r) (λ m, m ≠ []).
Proof.
  intros Hr w Hw. unfold last_of, Py.last_item.
  destruct (last r) as [m|] eqn:E; [|by split_and!].
  split_and!; [done|constructor|]. intros a [= <-].
  apply last_Some in E as [front ->].
  apply Forall_app in Hr as [_ Hm]. by inversion Hm.
Qed.

Lemma emits_report_loop (range : list nat) (pm uid sid : str) :
  emits_only P (report_loop build run_async range pm uid sid) (λ _, True).
Proof.
  induction range as [|i range IH]; simpl.
  - by apply emits_ret.
  - eapply emits_bind; [apply emits_invoke|]. intros r Hr.
    eapply emits_bind; [by apply emits_last_of|]. intros m Hm.
    destruct (Py.contains no_output m); [by apply emits_ret|].
    eapply emits_bind; [by apply emits_yield, P_text|].
    intros _ _. exact IH.
Qed.

Lemma emits_first_conversation (msg uid sid : str) :
  emits_only P (_generate_first_conversation build run_async msg uid sid)
    (λ _, True).
Proof.
  unfold _generate_first_conversation.
  eapply emits_bind; [apply emits_invoke|]. intros r1 Hr1.
  eapply emits_bind; [by apply emits_last_of|]. intros m1 Hm1.
  eapply emits_bind; [apply emits_extract_pins|]. intros pins1 Hp1.
  eapply emits_bind; [by apply emits_yield_each|]. intros _ _.
  eapply emits_bind; [by apply emits_yield, P_text|]. intros _ _.
  eapply emits_bind; [apply emits_invoke|]. intros r2 Hr2.
  eapply emits_bind; [by apply emits_last_of|]. intros m2 Hm2.
  eapply emits_bind; [by apply emits_yield, P_text|]. intros _ _.
  eapply emits_bind; [apply emits_invoke|]. intros r3 Hr3.
  eapply emits_bind; [by apply emits_last_of|]. intros m3 Hm3.
  eapply emits_bind; [by apply emits_yield, P_text|]. intros _ _.
  eapply emits_bind; [apply emits_extract_pins|]. intros pins2 Hp2.
  eapply emits_bind; [by apply emits_yield_each|]. intros _ _.
  eapply emits_bind; [apply emits_report_loop|]. intros _ _.
  eapply emits_bind; [apply emits_invoke|]. intros r5 Hr5.
  eapply emits_bind; [by apply emits_last_of|]. intros m5 Hm5.
  by apply emits_yield, P_text.
Qed.

Lemma emits_try_except (body : G ()) (handler : exn → G ()) (Q : () → Prop) :
  emits_only P body Q → (∀ e, emits_only P (handler e) (λ _, True)) →
  emits_only P (try_except body handler) (λ _, True).
Proof.
  intros Hb Hh w Hw. unfold try_except.
  destruct (Hb w Hw) as (H1 & H2 & _).
  destruct (body w) as [[t1 [e|[]]] w1]; simpl in *; [|by split_and!].
  destruct (Hh e w1 H1) as (H4 & H5 & _).
  destruct (handler e w1) as [[t2 r] w2]; simpl in *.
  split_and!; [done| |done]. rewrite events_app. by apply Forall_app.
Qed.

Hypothesis P_error : ∀ e, P (error_event e).

Lemma emits_after_second (msg uid sid : str) :
  emits_only P (_generate_after_second_conversations build run_async msg uid sid)
    (λ _, True).
Proof.
  unfold _generate_after_second_conversations.
  eapply emits_try_except; [|intros e; apply emits_yield, P_error].
  eapply emits_bind; [apply emits_invoke|]. intros r Hr.
  eapply emits_bind; [by apply emits_last_of|]. intros m Hm.
  eapply emits_bind; [apply emits_extract_pins|]. intros pins Hp.
  eapply emits_bind; [by apply emits_yield_each|]. intros _ _.
  by apply emits_yield, P_text.
Qed.

End EmitsOnly.

End KeptByGenerators.

Lemma validate_keeps_session_id (unicode_alnum : N → bool)
    (raw_message raw_session_id : str) (request : ChatRequest) :
  validate unicode_alnum raw_message raw_session_id = inr request →
  session_id request = raw_session_id.
Proof.
  unfold validate.
  destruct (validate_field "message" _ _ _ _) as [e1|m];
    destruct (validate_field "session_id" _ _ _ _) as [e2|s] eqn:E;
    try done.
  intros [= <-]. simpl. unfold validate_field, validate_session_id in E.
  destruct (check_length _ _ _ _); [done|].
  destruct (negb _); [done|]. by injection E as <-.
Qed.

(** X13. The second request of a session runs the continuation pipeline.
    After a first accepted request of a session whose station agent could
    be built, the conversation of the session is on file, whatever failed
    later in that stream; so every later accepted request with the same
    session id is answered by the continuation generator, which ends
    normally. *)
Theorem second_request_runs_continuation
    (unicode_alnum : N → bool) (build : agent_kind → option exn)
    (run_async : agent_kind → str → str → str → World → run)
    (raw_message raw_message2 raw_session_id client_ip client_ip2 : str)
    (now now2 : Z) (w : World) (request request2 : ChatRequest)
    (rc rc2 : gmap (list N) (gmap Z Z)) :
  build station_agent = None →
  validate unicode_alnum raw_message raw_session_id = inr request →
  RateLimit.check client_ip now (request_counts w) = (true, rc) →
  let w1 := (chat unicode_alnum build run_async raw_message raw_session_id
               client_ip now w).2 in
  validate unicode_alnum raw_message2 raw_session_id = inr request2 →
  RateLimit.check client_ip2 now2 (request_counts w1) = (true, rc2) →
  let g := _generate_after_second_conversations build run_async
             (message request2) raw_session_id raw_session_id
             (set_request_counts w1 rc2) in
  on_file raw_session_id raw_session_id w1
  ∧ chat unicode_alnum build run_async raw_message2 raw_session_id
      client_ip2 now2 w1
    = (StreamingResponse g.1.1 Done, g.2).
Proof.
  intros Hb Hv Hr w1 Hv2 Hr2 g.
  pose proof (validate_keeps_session_id _ _ _ _ Hv) as Hs.
  pose proof (validate_keeps_session_id _ _ _ _ Hv2) as Hs2.
  assert (Hon : on_file raw_session_id raw_session_id w1).
  { unfold w1, chat. rewrite Hv, Hr. cbn [negb]. rewrite Hs.
    destruct (check_conversation_if_exist _ _ _ _) eqn:E.
    - pose proof (on_file_after_second build run_async raw_session_id
        raw_session_id (message request) raw_session_id raw_session_id
        (set_request_counts w rc) E) as H.
      by destruct (_generate_after_second_conversations build run_async
        (message request) raw_session_id raw_session_id
        (set_request_counts w rc)) as [[t r] w2].
    - pose proof (first_conversation_registers build run_async
        (message request) raw_session_id raw_session_id
        (set_request_counts w rc) Hb) as H.
      by destruct (_generate_first_conversation build run_async
        (message request) raw_session_id raw_session_id
        (set_request_counts w rc)) as [[t r] w2]. }
  split; [exact Hon|].
  unfold chat. rewrite Hv2, Hr2. cbn [negb]. rewrite Hs2.
  change (check_conversation_if_exist (sessions (set_request_counts w1 rc2))
            (Py.u "MODEL") raw_session_id raw_session_id)
    with (check_conversation_if_exist (sessions w1) CustomAgent.MODEL
            raw_session_id raw_session_id).
  unfold on_file in Hon. rewrite Hon. fold g.
  pose proof (after_second_ends_done build run_async (message request2)
    raw_session_id raw_session_id (set_request_counts w1 rc2)) as Hend.
  fold g in Hend. destruct g as [[t r] w2]. simpl in *. by subst r.
Qed.

Lemma second_request_runs_continuation_witness :
  on_file Scenario.sess_1 Scenario.sess_1
    (chat Scenario.ascii_only Scenario.all_built Scenario.script
       (Py.u "go") Scenario.sess_1 Scenario.client 1000
       Scenario.empty_world).2.
Proof.
  refine (proj1 (second_request_runs_continuation Scenario.ascii_only
    Scenario.all_built Scenario.script (Py.u "go") (Py.u "more")
    Scenario.sess_1 Scenario.client Scenario.client 1000 1001
    Scenario.empty_world
    {| message := Py.u "go"; session_id := Scenario.sess_1 |}
    {| message := Py.u "more"; session_id := Scenario.sess_1 |}
    (RateLimit.check Scenario.client 1000 ∅).2
    (RateLimit.check Scenario.client 1001
       (RateLimit.check Scenario.client 1000 ∅).2).2
    eq_refl eq_refl _ eq_refl _)).
  - vm_compute. reflexivity.
  - vm_compute. reflexivity.
Defined.

(** X14. The continuation pipeline drains everything queued for the
    user. With the estate agent built, the pin events of its stream are
    what was queued for the user before the request followed by what the
    tools of the estate run enqueued for the user, all in reverse order,
    then comes the message; pins left over from an earlier request are
    therefore delivered here; and the user's queue is empty when the
    stream ends. *)
Theorem continuation_drains_queue
    (build : agent_kind → option exn)
    (run_async : agent_kind → str → str → str → World → run)
    (msg uid sid : str) (w : World) :
  build estate_agent = None →
  let r := CustomAgent.run_of run_async estate_agent msg uid sid w in
  let g := _generate_after_second_conversations build run_async msg uid sid w in
  ∃ m,
    events g.1.1
    = (Data <$> reverse (data w !!! uid ++ tool_pins uid (steps r)))
      ++ [agent_response m]
    ∧ data g.2 !!! uid = [].
Proof.
  intros Hb r g. unfold g.
  destruct (after_second_trace build run_async msg uid sid w Hb)
    as (m & _ & ->).
  exists m. cbn [fst snd].
  change (events (Invoke ?a ?q ?u ?s0 ?x :: ?t)) with (events t).
  rewrite events_app, events_yields, extract_pins_result, stream_queue.
  split; [done|]. apply extract_pins_empties.
Qed.

Lemma continuation_drains_queue_witness :
  ∃ m,
    events (_generate_after_second_conversations Scenario.all_built
              Scenario.script (Py.u "more") Scenario.sess_1 Scenario.sess_1
              Scenario.empty_world).1.1
    = (Data <$> reverse
         (data Scenario.empty_world !!! Scenario.sess_1
          ++ tool_pins Scenario.sess_1
               (steps (CustomAgent.run_of Scenario.script estate_agent
                         (Py.u "more") Scenario.sess_1 Scenario.sess_1
                         Scenario.empty_world))))
      ++ [agent_response m]
    ∧ data (_generate_after_second_conversations Scenario.all_built
              Scenario.script (Py.u "more") Scenario.sess_1 Scenario.sess_1
              Scenario.empty_world).2 !!! Scenario.sess_1 = [].
Proof.
  exact (continuation_drains_queue Scenario.all_built Scenario.script
    (Py.u "more") Scenario.sess_1 Scenario.sess_1 Scenario.empty_world eq_refl).
Defined.

(** X15. The lines of the stream. In a world whose store holds pin
    dictionaries only, whichever builders fail and whatever the runs do,
    every line the first-turn generator yields is a pin line or an
    [agent_response] with a message that is not empty, every line the
    continuation generator yields is one of these or the [error] line,
    and both leave the store holding pin dictionaries only. *)
Theorem stream_lines_are_known
    (build : agent_kind → option exn)
    (run_async : agent_kind → str → str → str → World → run)
    (msg uid sid : str) (w : World) :
  pins_only (data w) →
  let first := _generate_first_conversation build run_async msg uid sid w in
  let later :=
    _generate_after_second_conversations build run_async msg uid sid w in
  Forall (λ e, pin_line e ∨ text_line e) (events first.1.1)
  ∧ Forall (λ e, pin_line e ∨ text_line e ∨ error_line e) (events later.1.1)
  ∧ pins_only (data first.2)
  ∧ pins_only (data later.2).
Proof.
  intros Hw first later.
  destruct (emits_first_conversation build run_async
              (λ e, pin_line e ∨ text_line e)
              ltac:(by intros j Hj; left; exists j)
              ltac:(by intros m Hm; right; exists m)
              msg uid sid w Hw) as (H1 & H2 & _).
  destruct (emits_after_second build run_async
              (λ e, pin_line e ∨ text_line e ∨ error_line e)
              ltac:(by intros j Hj; left; exists j)
              ltac:(by intros m Hm; right; left; exists m)
              ltac:(by intros e; right; right; exists e)
              msg uid sid w Hw) as (H3 & H4 & _).
  by split_and!.
Qed.

Lemma stream_lines_are_known_witness :
  Forall (λ e, pin_line e ∨ text_line e)
    (events (_generate_first_conversation Scenario.all_built Scenario.script
               (Py.u "go") Scenario.sess_1 Scenario.sess_1
               Scenario.empty_world).1.1).
Proof.
  refine (proj1 (stream_lines_are_known Scenario.all_built Scenario.script
    (Py.u "go") Scenario.sess_1 Scenario.sess_1 Scenario.empty_world _)).
  intros u q. simpl. by rewrite lookup_empty.
Defined.

(** ** The time zones of [categorize_by_time] *)

Section CategorizeFacts.
Context {station number : Type}.
Variable travel_time : station → option number.
Variable le : number → Z → bool.

Lemma zone_of_named (st : station) :
  Explore.zone_of travel_time le st ∈ Explore.zone_names.
Proof.
  unfold Explore.zone_of, Explore.zone_names.
  repeat (destruct (Explore.time_le _ _ _ _); [set_solver|]). set_solver.
Qed.

Lemma append_to_tabulated (key : string) (st : station)
    (acc : string → list station) (names : list string) :
  Explore.append_to key st ((λ z, (z, acc z)) <$> names)
  = (λ z, (z, if decide (z = key) then acc z ++ [st] else acc z)) <$> names.
Proof.
  unfold Explore.append_to. rewrite <- list_fmap_compose.
  apply list_fmap_ext. intros i z _. simpl. by destruct (decide (z = key)).
Qed.

Lemma categorize_fold (stations : list station) :
  ∀ (acc : string → list station) (names : list string),
    foldl (λ zones st,
             Explore.append_to (Explore.zone_of travel_time le st) st zones)
      ((λ z, (z, acc z)) <$> names) stations
    = (λ z, (z, acc z
                ++ filter (λ st, Explore.zone_of travel_time le st = z) stations))
      <$> names.
Proof.
  induction stations as [|st stations IH]; intros acc names; simpl.
  - apply list_fmap_ext. intros i z _. by rewrite app_nil_r.
  - rewrite append_to_tabulated, IH.
    apply list_fmap_ext. intros i z _. simpl. f_equal.
    rewrite filter_cons.
    destruct (decide (z = Explore.zone_of travel_time le st)) as [->|Hne].
    + rewrite decide_True by done. by rewrite <- app_assoc.
    + by rewrite decide_False by congruence.
Qed.

Lemma concat_classes (f : station → string) (names : list string)
    (stations : list station) :
  NoDup names → Forall (λ st, f st ∈ names) stations →
  concat ((λ z, filter (λ st, f st = z) stations) <$> names) ≡ₚ stations.
Proof.
  intros Hnd. induction 1 as [|st stations Hst _ IH]; simpl.
  - clear Hnd. induction names as [|z names IHn]; [done|]. simpl. exact IHn.
  - transitivity (st :: concat ((λ z, filter (λ st, f st = z) stations) <$> names));
      [|by constructor].
    clear IH.
    induction names as [|z names IHn]; [by apply elem_of_nil in Hst|].
    apply NoDup_cons in Hnd as [Hz Hnd]. simpl. rewrite filter_cons.
    destruct (decide (f st = z)) as [Heq|Hne].
    + simpl. constructor. apply Permutation_app_head.
      assert (Hsame : ∀ names' : list string, z ∉ names' →
        (λ z0, filter (λ st0, f st0 = z0) (st :: stations)) <$> names'
        = (λ z0, filter (λ st0, f st0 = z0) stations) <$> names').
      { intros names' Hn. apply list_fmap_ext. intros i z0 Hi.
        rewrite filter_cons, decide_False; [done|].
        intros Hf. apply Hn. rewrite <- Heq, Hf.
        by eapply list_elem_of_lookup_2. }
      by rewrite Hsame.
    + apply elem_of_cons in Hst as [Hst|Hst]; [done|].
      rewrite (IHn Hnd Hst).
      by rewrite Permutation_middle.
Qed.

End CategorizeFacts.

(** X16. [categorize_by_time] sorts every station into exactly one of its
    six zones. The result always has the six keys, in the order of the
    literal, also for an empty list; the list under a key is the stations
    the chain of comparisons sends to that key, in the order given; and
    the six lists together hold every station once: none is dropped and
    none is listed twice. A station without a travel time counts as 0
    minutes and lands under the first key. *)
Theorem categorize_by_time_partitions
    (station number : Type) (travel_time : station → option number)
    (le : number → Z → bool) (stations : list station) :
  Explore.categorize_by_time travel_time le stations
  = (λ z, (z, filter (λ st, Explore.zone_of travel_time le st = z) stations))
    <$> Explore.zone_names
  ∧ concat ((Explore.categorize_by_time travel_time le stations).*2) ≡ₚ stations
  ∧ (∀ st, travel_time st = None →
           Explore.zone_of travel_time le st = "0-10min"%string).
Proof.
  assert (Hres : Explore.categorize_by_time travel_time le stations
    = (λ z, (z, filter (λ st, Explore.zone_of travel_time le st = z) stations))
      <$> Explore.zone_names).
  { unfold Explore.categorize_by_time.
    by rewrite (categorize_fold travel_time le stations (λ _, [])). }
  split; [exact Hres|]. split.
  - rewrite Hres, <- list_fmap_compose.
    apply (concat_classes (Explore.zone_of travel_time le)).
    + unfold Explore.zone_names. apply NoDup_ListNoDup.
      repeat (constructor; [simpl; intuition discriminate|]). constructor.
    + apply Forall_forall. intros st _. apply zone_of_named.
  - intros st Hst. unfold Explore.zone_of, Explore.time_le. by rewrite Hst.
Qed.

(** X17. When a run event adds a text to the result of [stream]: exactly
    when it has a content and at least one part of the content has a text
    that is not empty; parts without text or with an empty text are
    skipped, and an event made of such parts only adds nothing. *)
Theorem event_response_iff (e : Event) :
  is_Some (CustomAgent.event_response e)
  ↔ ∃ c, content e = Some c
         ∧ Exists (λ p, ∃ t, text p = Some t ∧ t ≠ []) (parts c).
Proof.
  assert (Htexts : ∀ ps,
    CustomAgent.truthy_texts ps ≠ []
    ↔ Exists (λ p, ∃ t, text p = Some t ∧ t ≠ []) ps).
  { induction ps as [|p ps IH]; simpl.
    - split; [done|]. by intros ?%Exists_nil.
    - rewrite Exists_cons. unfold CustomAgent.truthy_texts in *. simpl.
      destruct (text p) as [[|ch t]|] eqn:E; simpl.
      + rewrite IH. split; [by auto|]. by intros [(t & [= <-] & ?)|?].
      + split; [|done]. intros _. left. by exists (ch :: t).
      + rewrite IH. split; [by auto|]. by intros [(t & [=] & ?)|?]. }
  assert (Hjoin : ∀ ts, Forall (λ t, t ≠ []) ts → ts ≠ [] →
                        CustomAgent.join_lines ts ≠ []).
  { intros [|t [|t' ts]] Hall Hne; [done| |].
    - simpl. by apply Forall_cons in Hall as [? _].
    - apply Forall_cons in Hall as [Ht _]. simpl. by destruct t. }
  assert (Hall : ∀ ps, Forall (λ t, t ≠ []) (CustomAgent.truthy_texts ps)).
  { induction ps as [|p ps IH]; [constructor|].
    unfold CustomAgent.truthy_texts in *. simpl.
    destruct (text p) as [[|ch t]|]; simpl; [done| |done].
    by constructor. }
  unfold CustomAgent.event_response.
  destruct (content e) as [c|]; [|split; [by intros [? ?]|by intros (? & ? & _)]].
  specialize (Htexts (parts c)). specialize (Hall (parts c)).
  destruct (parts c) as [|p ps] eqn:Ep.
  { split; [by intros [? ?]|]. intros (c' & [= <-] & Hex).
    rewrite Ep in Hex. by apply Exists_nil in Hex. }
  destruct (CustomAgent.join_lines (CustomAgent.truthy_texts (p :: ps)))
    as [|ch r] eqn:Ej.
  - split; [by intros [? ?]|]. intros (c' & [= <-] & Hex). exfalso.
    rewrite Ep in Hex. apply Htexts in Hex.
    by apply (Hjoin _ Hall Hex).
  - split; [|by eexists]. intros _. exists c. split; [done|].
    rewrite Ep. apply Htexts. intros Hnil. by rewrite Hnil in Ej.
Qed.

(** ** The station tool *)

(** X18. What [get_station_coordinates] does to the pin store. It
    answers "success" exactly when it has a tool context and the geocoder
    answered OK with at least one result; it then enqueues one pin for the
    user of the context, named after the station and placed at the first
    result, which the user's next drain delivers first, unless the user
    id is empty, in which case it answers "success" and enqueues nothing.
    In every other case, a missing tool context included, the store is
    left as it was; and the queues of the other users are never
    touched. *)
Theorem get_station_coordinates_pins
    (station_name : str) (tool_context : option str)
    (http : MapApi.geocode_outcome) (d : gmap (list N) (list json)) :
  let r := MapApi.get_station_coordinates station_name tool_context http d in
  (assoc (Py.u "status") r.1 = Some (JStr (Py.u "success"))
   ↔ ∃ u lat lng rest,
       tool_context = Some u
       ∧ http = MapApi.Geocoded (Py.u "OK") ((lat, lng) :: rest))
  ∧ (∀ u lat lng rest,
       tool_context = Some u → u ≠ [] →
       http = MapApi.Geocoded (Py.u "OK") ((lat, lng) :: rest) →
       r.2 !!! u
       = d !!! u
         ++ [SendPinStore.pin_dict
               {| lat := lat; lon := lng; name := station_name |}]
       ∧ head (SendPinStore.extract_pins u r.2).1
         = Some (Data (SendPinStore.pin_dict
                         {| lat := lat; lon := lng; name := station_name |})))
  ∧ (assoc (Py.u "status") r.1 ≠ Some (JStr (Py.u "success")) → r.2 = d)
  ∧ (tool_context = Some [] → r.2 = d)
  ∧ (∀ v, tool_context ≠ Some v → r.2 !! v = d !! v).
Proof.
  intros r. subst r. unfold MapApi.get_station_coordinates.
  destruct http as [|status results].
  { split_and!; try done.
    all: try (split; [by intros [=]|]; by intros (? & ? & ? & ? & _ & [=])). }
  destruct (bool_decide (status = Py.u "OK")) eqn:Hs.
  2: { assert (Hno : ∀ lat lng rest,
         MapApi.Geocoded status results
         ≠ MapApi.Geocoded (Py.u "OK") ((lat, lng) :: rest)).
       { intros lat lng rest [= -> _]. by rewrite bool_decide_eq_true_2 in Hs. }
       split_and!; try done.
       - split; [by intros [=]|].
         intros (u & lat & lng & rest & _ & H). by apply Hno in H.
       - intros u lat lng rest _ _ H. by apply Hno in H. }
  apply bool_decide_eq_true_1 in Hs as ->.
  destruct results as [|[lat lng] rest].
  { split_and!; try done.
    all: try (split; [by intros [=]|]; by intros (? & ? & ? & ? & _ & [=])). }
  destruct tool_context as [u|].
  2: { split_and!; try done.
       all: try (split; [by intros [=]|]; by intros (? & ? & ? & ? & [=] & _)). }
  split_and!.
  - split; [|done]. intros _. by exists u, lat, lng, rest.
  - intros u' lat' lng' rest' [= <-] Hu [= <- <- <-].
    destruct u as [|c u]; [done|]. simpl.
    rewrite PinStoreFacts.insert_pins_lookup_total. split; [done|].
    rewrite extract_pins_result, PinStoreFacts.insert_pins_lookup_total.
    by rewrite reverse_snoc.
  - intros H. by exfalso.
  - by intros [= ->].
  - intros v Hv. destruct u as [|c u]; [done|]. simpl.
    apply PinStoreFacts.insert_pins_other. congruence.
Qed.
